(** * nat-puncher: the utility module

    A shallow embedding of the helper functions of the NAT port-mapping
    library (gateway guessing by longest prefix match, the compact
    [ArrayBuffer] builder, the rejecting countdown, and the two array
    reconciliation helpers), followed by the properties the specification
    states about them.

    Conventions.
    - JavaScript numbers that the code uses as integers (octets, masks,
      byte offsets, field values, array indices) are in [Z].
    - A JavaScript call either returns or throws: [completion].
    - [undefined] as the value of an array read is [None]. *)

From Stdlib Require Import ZArith String Ascii List Lia Permutation.
From stdpp Require Import base list strings.

Local Open Scope string_scope.
Local Open Scope list_scope.
Local Open Scope Z_scope.

(** ** JavaScript completions *)

Module Js.

(** The exceptions the modelled code can raise. *)
Inductive exn : Type :=
| Error (msg : string)
| RangeError (msg : string).

Inductive completion (A : Type) : Type :=
| Normal (a : A)
| Throw (e : exn).
Arguments Normal {A} a.
Arguments Throw {A} e.

Definition bind {A B} (c : completion A) (k : A → completion B) : completion B :=
  match c with
  | Normal a => k a
  | Throw e => Throw e
  end.

(** [arr[i]] for a number [i]: [undefined] outside the array (in particular
    at [-1]). *)
Definition index {A} (arr : list A) (i : Z) : option A :=
  if i <? 0 then None else arr !! Z.to_nat i.

(** A number as the code meets it: an integer, or the [-Infinity] that
    [Math.max] gives for no arguments. *)
Inductive number : Type :=
| NegInfinity
| Num (z : Z).

#[export] Instance number_eq_dec : EqDecision number.
Proof. solve_decision. Defined.

Definition number_max (a b : number) : number :=
  match a, b with
  | NegInfinity, _ => b
  | _, NegInfinity => a
  | Num x, Num y => Num (Z.max x y)
  end.

(** [Math.max.apply(null, xs)] *)
Definition Math_max (xs : list number) : number :=
  fold_left number_max xs NegInfinity.

(** [xs.indexOf(v)], searching from position [i] on: the first position
    whose element is strictly equal to [v], or [-1]. *)
Fixpoint indexOf_from {A} `{EqDecision A} (xs : list A) (v : A) (i : Z) : Z :=
  match xs with
  | [] => -1
  | x :: xs' => if decide (x = v) then i else indexOf_from xs' v (i + 1)
  end.

Definition indexOf {A} `{EqDecision A} (xs : list A) (v : A) : Z :=
  indexOf_from xs v 0.

End Js.
Import Js.

Declare Scope js_scope.
Notation "'do' x <- c ; k" := (bind c (λ x, k))
  (at level 10, x name, c at level 100, k at level 200) : js_scope.
Local Open Scope js_scope.

Module DataView.

(** *** [DataView] over an [ArrayBuffer]

    The buffer is its list of bytes, each in [0, 255]. *)

(** [ToInt8], [ToInt16], [ToInt32] of an integer: reduction modulo
    [2^bits] into the signed range. *)
Definition ToInt (bits v : Z) : Z :=
  let m := v mod 2 ^ bits in
  if m <? 2 ^ (bits - 1) then m else m - 2 ^ bits.

(** The [n] bytes of the two's complement form of [x], most significant
    first (the [littleEndian = false] order). *)
Fixpoint rawBytes (n : nat) (x : Z) : list Z :=
  match n with
  | O => []
  | S n' => Z.land (Z.shiftr x (8 * Z.of_nat n')) 255 :: rawBytes n' x
  end.

(** Writes the bytes [bs] from position [i] on. *)
Fixpoint store (view : list Z) (i : nat) (bs : list Z) : list Z :=
  match bs with
  | [] => view
  | b :: bs' => store (<[i:=b]> view) (S i) bs'
  end.

(** [view.setInt8], [view.setInt16(_, _, false)], [view.setInt32(_, _, false)]
    for [bits] 8, 16, 32: a [RangeError] unless the whole field lies in
    the view. *)
Definition setInt (bits : Z) (view : list Z) (byteOffset value : Z)
    : completion (list Z) :=
  let size := bits / 8 in
  if (byteOffset <? 0) || (Z.of_nat (length view) <? byteOffset + size) then
    Throw (RangeError "Offset is outside the bounds of the DataView")
  else
    Normal (store view (Z.to_nat byteOffset)
              (rawBytes (Z.to_nat size) (ToInt bits value))).

(** The unsigned number that the bytes [bs] spell, most significant first. *)
Definition fromBytes (bs : list Z) : Z :=
  fold_left (λ acc b, acc * 256 + b) bs 0.

(** [view.getUint8], [view.getUint16(_, false)], [view.getUint32(_, false)]. *)
Definition getUint (bits : Z) (view : list Z) (byteOffset : Z) : completion Z :=
  let size := bits / 8 in
  if (byteOffset <? 0) || (Z.of_nat (length view) <? byteOffset + size) then
    Throw (RangeError "Offset is outside the bounds of the DataView")
  else
    Normal (fromBytes (take (Z.to_nat size) (drop (Z.to_nat byteOffset) view))).

(** [view.getInt8], [view.getInt16(_, false)], [view.getInt32(_, false)]. *)
Definition getInt (bits : Z) (view : list Z) (byteOffset : Z) : completion Z :=
  do u <- getUint bits view byteOffset ;
  Normal (ToInt bits u).

End DataView.
Import DataView.


(** ** The part of [ipaddr.js] the module calls

    [ipaddr.js] is an external package.  The model covers canonical
    dotted-decimal notation (four decimal parts without leading zeros), the
    notation of [ROUTER_IPS] and of the addresses the operating system
    reports; the other notations the package reads (hexadecimal or octal
    parts, a single long value) are rejected here. *)

Module Ipaddr.

Record IPv4 : Type := { octets : list Z }.

Definition digit_of (c : ascii) : option Z :=
  let n := Z.of_nat (nat_of_ascii c) in
  if (48 <=? n) && (n <=? 57) then Some (n - 48) else None.

(** Reads the parts between dots: [cur] is the part being read, [acc] the
    finished parts, last first. *)
Fixpoint parts_of (s : string) (cur : option Z) (acc : list Z) : option (list Z) :=
  match s with
  | EmptyString =>
      match cur with
      | Some v => Some (rev (v :: acc))
      | None => None
      end
  | String c s' =>
      if Ascii.eqb c "."%char then
        match cur with
        | Some v => parts_of s' None (v :: acc)
        | None => None
        end
      else
        match digit_of c with
        | Some d =>
            match cur with
            | None => parts_of s' (Some d) acc
            | Some v => if v =? 0 then None else parts_of s' (Some (10 * v + d)) acc
            end
        | None => None
        end
  end.

(** [IPv4.parser]: the four parts, or [null]. *)
Definition parser (s : string) : option (list Z) :=
  match parts_of s None [] with
  | Some ps => if Nat.eqb (length ps) 4 then Some ps else None
  | None => None
  end.

(** [new IPv4(octets)] *)
Definition new_IPv4 (ps : list Z) : completion IPv4 :=
  if negb (Nat.eqb (length ps) 4) then
    Throw (Error "ipaddr: ipv4 octet count should be 4")
  else if forallb (λ o, (0 <=? o) && (o <=? 255)) ps then
    Normal {| octets := ps |}
  else Throw (Error "ipaddr: ipv4 octet should fit in 8 bits").

(** [ipaddr.IPv4.parse] *)
Definition parse (s : string) : completion IPv4 :=
  match parser s with
  | None => Throw (Error "ipaddr: string is not formatted like ip address")
  | Some ps => new_IPv4 ps
  end.

(** The [while (cidrBits > 0)] loop of [matchCIDR]; [None] when [fuel]
    iterations were not enough. *)
Fixpoint matchCIDR_loop (fuel : nat) (first second : list Z)
    (partSize cidrBits : Z) (part : nat) : option bool :=
  match fuel with
  | O => None
  | S fuel' =>
      if 0 <? cidrBits then
        let shift := partSize - cidrBits in
        let shift := if shift <? 0 then 0 else shift in
        if negb (Z.shiftr (nth part first 0) shift =? Z.shiftr (nth part second 0) shift)
        then Some false
        else matchCIDR_loop fuel' first second partSize (cidrBits - partSize) (S part)
      else Some true
  end.

(** [matchCIDR(first, second, partSize, cidrBits)].  Each iteration takes
    [partSize] bits off [cidrBits], so [cidrBits + 1] iterations are
    enough when [partSize] is positive ([matchCIDR_loop_fuel] below). *)
Definition matchCIDR (first second : list Z) (partSize cidrBits : Z) : completion bool :=
  if negb (Nat.eqb (length first) (length second)) then
    Throw (Error "ipaddr: cannot match CIDR for objects with different lengths")
  else
    match matchCIDR_loop (S (Z.to_nat cidrBits)) first second partSize cidrBits 0 with
    | Some b => Normal b
    | None => Normal true
    end.

(** [this.match(other, cidrRange)] for two IPv4 addresses. *)
Definition IPv4_match (this other : IPv4) (cidrRange : Z) : completion bool :=
  matchCIDR (octets this) (octets other) 8 cidrRange.

(** [ipaddr.IPv4.isValid]: whether building the address from the parsed
    string goes through. *)
Definition isValid (s : string) : bool :=
  match parse s with
  | Normal _ => true
  | Throw _ => false
  end.

End Ipaddr.

(** ** The utility module *)

Module Utils.

Import Ipaddr.

(** List of popular router default IPs. *)
Definition ROUTER_IPS : list string :=
  ["192.168.1.1"; "192.168.2.1"; "192.168.11.1";
   "192.168.0.1"; "192.168.0.30"; "192.168.0.50"; "192.168.20.1";
   "192.168.30.1"; "192.168.62.1"; "192.168.100.1"; "192.168.102.1";
   "192.168.1.254"; "192.168.10.1"; "192.168.123.254"; "192.168.4.1";
   "10.0.1.1"; "10.1.1.1"; "10.0.0.13"; "10.0.0.2"; "10.0.0.138"].

(** The inner loop of [longestPrefixMatch],
    [for (var mask = 1; mask < 32; mask++)], from [mask] on with the [n]
    masks up to 31 still to try: the value it pushes before [break], if
    any. *)
Fixpoint maskLoop (n : nat) (mask : Z) (ip matchIp : IPv4) : completion (option Z) :=
  match n with
  | O => Normal None
  | S n' =>
      do m <- IPv4_match ip matchIp mask ;
      if negb m then Normal (Some (mask - 1))
      else maskLoop n' (mask + 1) ip matchIp
  end.

(** The outer loop of [longestPrefixMatch], over the entries of [ipList]
    that are still to come. *)
Fixpoint prefixLoop (ipList : list string) (matchIp : IPv4)
    (prefixMatches : list number) : completion (list number) :=
  match ipList with
  | [] => Normal prefixMatches
  | s :: rest =>
      do ip <- parse s ;
      do pushed <- maskLoop 31 1 ip matchIp ;
      prefixLoop rest matchIp
        match pushed with
        | Some v => prefixMatches ++ [Num v]
        | None => prefixMatches
        end
  end.

Definition longestPrefixMatch (ipList : list string) (matchIp : string)
    : completion (option string) :=
  do matchIp <- parse matchIp ;
  do prefixMatches <- prefixLoop ipList matchIp [] ;
  let maxIndex := indexOf prefixMatches (Math_max prefixMatches) in
  let correctIp := index ipList maxIndex in
  Normal correctIp.

(** [privateIps.forEach(...)] pushing one result per private address. *)
Fixpoint filterRouterIps_loop (privateIps : list string)
    (routerIps : list (option string)) : completion (list (option string)) :=
  match privateIps with
  | [] => Normal routerIps
  | privateIp :: rest =>
      do r <- longestPrefixMatch ROUTER_IPS privateIp ;
      filterRouterIps_loop rest (routerIps ++ [r])
  end.

Definition filterRouterIps (privateIps : list string) : completion (list (option string)) :=
  filterRouterIps_loop privateIps [].

(** An object representing a port mapping returned by mapping methods.
    A field that is [undefined] is [None]; [F] is the type of deleter
    functions. *)
Record Mapping (F : Type) : Type := {
  internalIp : option string;
  internalPort : option Z;
  externalIp : option string;
  externalPort : option Z;
  lifetime : option Z;
  protocol : option string;
  timeoutId : option Z;
  nonce : option (list Z);
  deleter : option F;
  errInfo : option string
}.

(** [new Mapping()] *)
Definition new_Mapping (F : Type) : Mapping F :=
  {| internalIp := None;
     internalPort := None;
     externalIp := None;
     externalPort := Some (-1);
     lifetime := None;
     protocol := None;
     timeoutId := None;
     nonce := None;
     deleter := None;
     errInfo := None |}.

(** A row [[bits, byteOffset, value]] of the compact matrix notation. *)
Record row : Type := { bits : Z; byteOffset : Z; value : Z }.

(** The [for] loop of [createArrayBuffer] over the rows still to come:
    what [console.error] has printed so far, and how the loop completes. *)
Fixpoint createArrayBuffer_loop (matrix : list row) (view : list Z)
    (console : list string) : list string * completion (list Z) :=
  match matrix with
  | [] => (console, Normal view)
  | r :: rest =>
      if bits r =? 8 then
        match setInt 8 view (byteOffset r) (value r) with
        | Normal view' => createArrayBuffer_loop rest view' console
        | Throw e => (console, Throw e)
        end
      else if bits r =? 16 then
        match setInt 16 view (byteOffset r) (value r) with
        | Normal view' => createArrayBuffer_loop rest view' console
        | Throw e => (console, Throw e)
        end
      else if bits r =? 32 then
        match setInt 32 view (byteOffset r) (value r) with
        | Normal view' => createArrayBuffer_loop rest view' console
        | Throw e => (console, Throw e)
        end
      else
        createArrayBuffer_loop rest view
          (console ++ ["Invalid parameters to createArrayBuffer"])
  end.

(** [createArrayBuffer(bytes, matrix)]: [new ArrayBuffer(bytes)] is
    zero-filled, and refuses a negative length. *)
Definition createArrayBuffer (bytes : Z) (matrix : list row)
    : list string * completion (list Z) :=
  if bytes <? 0 then ([], Throw (RangeError "Invalid array buffer length"))
  else createArrayBuffer_loop matrix (replicate (Z.to_nat bytes) 0) [].

(** *** [countdownReject]

    The promise and the timer are modelled by what can be observed of
    them: the state of the promise, and the order in which the callback
    is called and the promise is rejected.  [World] is whatever the
    callback acts on (the socket it closes). *)
Section Countdown.

Variable World : Type.

Inductive settlement : Type :=
| Pending
| Fulfilled
| Rejected (reason : exn).

Inductive event : Type :=
| CallbackCalled
| PromiseRejected (reason : exn).

Record state : Type := {
  world : World;
  promise : settlement;
  trace : list event
}.

(** A callback: it changes the world, and returns or throws. *)
Definition callback_fn : Type := World → World * option exn.

(** The reject function [R] of the promise: it settles a pending promise
    and does nothing to a settled one. *)
Definition R (reason : exn) (st : state) : state :=
  match promise st with
  | Pending =>
      {| world := world st;
         promise := Rejected reason;
         trace := trace st ++ [PromiseRejected reason] |}
  | _ => st
  end.

(** The function handed to [setTimeout]. *)
Definition countdown_body (msg : string) (callback : option callback_fn)
    (st : state) : state * completion unit :=
  match callback with
  | Some f =>
      let '(w, thrown) := f (world st) in
      let st' := {| world := w;
                    promise := promise st;
                    trace := trace st ++ [CallbackCalled] |} in
      match thrown with
      | Some e => (st', Throw e)
      | None => (R (Error msg) st', Normal ())
      end
  | None => (R (Error msg) st, Normal ())
  end.

(** A timer set by [setTimeout(body, delay)]. *)
Record timer : Type := {
  delay : Z;
  body : state → state * completion unit
}.

(** [countdownReject(time, msg, callback)]: the promise it returns, and
    the timers its executor has set. *)
Definition countdownReject (time : Z) (msg : string)
    (callback : option callback_fn) : settlement * list timer :=
  (Pending, [{| delay := time; body := countdown_body msg callback |}]).

End Countdown.

(** *** Array reconciliation

    [indexOf] compares with [===]; on the values these arrays hold
    (address strings) that is equality. *)
Section Arrays.

Context {A : Type} `{EqDecision A}.

Fixpoint arrDiff_loop (listA listB diff : list A) : list A :=
  match listA with
  | [] => diff
  | a :: rest =>
      arrDiff_loop rest listB
        (if indexOf listB a =? -1 then diff ++ [a] else diff)
  end.

(** Returns the difference between two arrays. *)
Definition arrDiff (listA listB : list A) : list A :=
  arrDiff_loop listA listB [].

(** [xs.forEach(x => { if (sum.indexOf(x) === -1) sum.push(x) })] *)
Fixpoint arrAdd_loop (xs sum : list A) : list A :=
  match xs with
  | [] => sum
  | x :: rest =>
      arrAdd_loop rest (if indexOf sum x =? -1 then sum ++ [x] else sum)
  end.

(** Adds two arrays, but doesn't include repeated elements. *)
Definition arrAdd (listA listB : list A) : list A :=
  arrAdd_loop listB (arrAdd_loop listA []).

End Arrays.

(** *** [getPrivateIps]

    An entry of [os.networkInterfaces()], with the fields the module reads. *)
Record NetworkInterfaceInfo : Type := { address : string; internal : bool }.

(** [getPrivateIps()]: the value its promise is fulfilled with, where [i]
    is the object [os.networkInterfaces()] returns, given as the list of
    its entries (interface name, addresses) in key order, so that
    [Object.keys(i).map(k => i[k])] is the list of the second
    components. *)
Definition getPrivateIps (i : list (string * list NetworkInterfaceInfo))
    : list string :=
  filter (λ a, isValid a = true)
    (map address
       (filter (λ i, negb (internal i) = true)
          (fold_left (λ a b, a ++ b) (map snd i) []))).

(** *** Strings and buffers

    A string is the list of its UTF-16 code units. *)

(** [String.fromCharCode(n)]: the string of the one code unit
    [n mod 2^16]. *)
Definition fromCharCode (n : Z) : list Z := [n mod 65536].

(** The [for] loop of [arrayBufferToString] over the bytes still to come;
    [a] is the array of one-character strings. *)
Fixpoint arrayBufferToString_loop (bytes : list Z) (a : list (list Z))
    : list (list Z) :=
  match bytes with
  | [] => a
  | b :: rest => arrayBufferToString_loop rest (a ++ [fromCharCode b])
  end.

(** [arrayBufferToString(buffer)]; [a.join('')] is the concatenation. *)
Definition arrayBufferToString (buffer : list Z) : list Z :=
  concat (arrayBufferToString_loop buffer []).

(** The [for] loop of [stringToArrayBuffer] from position [i] on, over the
    code units still to come: [bytes[i] = s.charCodeAt(i)] keeps the low
    eight bits, [bytes] being a [Uint8Array]. *)
Fixpoint stringToArrayBuffer_loop (s : list Z) (i : nat) (bytes : list Z)
    : list Z :=
  match s with
  | [] => bytes
  | c :: rest => stringToArrayBuffer_loop rest (S i) (<[i := c mod 256]> bytes)
  end.

(** [stringToArrayBuffer(s)] *)
Definition stringToArrayBuffer (s : list Z) : list Z :=
  stringToArrayBuffer_loop s 0 (replicate (length s) 0).

End Utils.
Import Ipaddr Utils.


(** ** Notions of the specification *)

Module Spec.

(** The 32-bit word of an address. *)
Definition word (ip : IPv4) : Z := fromBytes (octets ip).

(** The number of leading bits two 32-bit words share, looked for from
    [n] bits downwards. *)
Fixpoint common_prefix (n : nat) (a b : Z) : Z :=
  match n with
  | O => 0
  | S n' =>
      if Z.shiftr a (32 - Z.of_nat n) =? Z.shiftr b (32 - Z.of_nat n)
      then Z.of_nat n
      else common_prefix n' a b
  end.

(** Two 32-bit words agree on their [k] leading bits. *)
Definition same_top (x y k : Z) : bool :=
  Z.shiftr x (32 - k) =? Z.shiftr y (32 - k).

(** The number of leading bits two addresses share. *)
Definition shared_bits (a b : IPv4) : Z := common_prefix 32 (word a) (word b).

(** The shared prefix length of two addresses in canonical notation
    ([-1] when one of them is not an address). *)
Definition shared_prefix (a b : string) : Z :=
  match parse a, parse b with
  | Normal x, Normal y => shared_bits x y
  | _, _ => -1
  end.

(** An address as [parse] builds it: four octets. *)
Definition octets_ok (ip : IPv4) : Prop :=
  ∃ a b c d, octets ip = [a; b; c; d] ∧
             0 ≤ a ≤ 255 ∧ 0 ≤ b ≤ 255 ∧ 0 ≤ c ≤ 255 ∧ 0 ≤ d ≤ 255.

(** What the loops of [longestPrefixMatch] push for the entry [s] of the
    list: its shared prefix length with [matchIp], and nothing when that
    is 31 or 32. *)
Definition pushed_for (matchIp : IPv4) (s : string) : option number :=
  match parse s with
  | Normal ip =>
      if shared_bits ip matchIp <? 31 then Some (Num (shared_bits ip matchIp))
      else None
  | Throw _ => None
  end.

(** The elements of [l] at the positions of first occurrence, where the
    elements of [seen] count as having occurred before [l] starts: the
    element at position [i] is kept when it occurs neither in [seen] nor
    before position [i]. *)
Definition keep_first {A} `{EqDecision A} (seen l : list A) : list A :=
  omap (λ i, x ← l !! i;
             if decide (x ∈ seen ++ take i l) then None else Some x)
       (seq 0 (length l)).

(** [l] without repetitions, in the order of first occurrence. *)
Definition first_seen {A} `{EqDecision A} (l : list A) : list A :=
  keep_first [] l.

(** *** Field-spec lists *)

(** The field of row [r] covers byte [i]. *)
Definition covers (r : row) (i : Z) : bool :=
  (byteOffset r <=? i) && (i <? byteOffset r + bits r / 8).

(** A row of a valid field-spec list for a buffer of [size] bytes: its
    width is 8, 16 or 32 bits and its field lies in the buffer. *)
Definition row_ok (size : Z) (r : row) : bool :=
  ((bits r =? 8) || (bits r =? 16) || (bits r =? 32))
  && (0 <=? byteOffset r) && (byteOffset r + bits r / 8 <=? size).

Definition disjoint (r1 r2 : row) : bool :=
  (byteOffset r1 + bits r1 / 8 <=? byteOffset r2)
  || (byteOffset r2 + bits r2 / 8 <=? byteOffset r1).

Fixpoint no_overlap (matrix : list row) : bool :=
  match matrix with
  | [] => true
  | r :: rest => forallb (disjoint r) rest && no_overlap rest
  end.

Definition valid_matrix (size : Z) (matrix : list row) : bool :=
  forallb (row_ok size) matrix && no_overlap matrix.

(** The row that wrote byte [j] last. *)
Definition writer (matrix : list row) (j : nat) : option row :=
  last (filter (λ r, covers r (Z.of_nat j) = true) matrix).

(** What [createArrayBuffer] prints for a row it cannot write. *)
Definition invalid_message : string :=
  "Invalid parameters to createArrayBuffer".

(** The value of row [r] fits its width as a signed number. *)
Definition fits_signed (r : row) : bool :=
  (- 2 ^ (bits r - 1) <=? value r) && (value r <? 2 ^ (bits r - 1)).

(** The value of row [r] fits its width as an unsigned number. *)
Definition fits_unsigned (r : row) : bool :=
  (0 <=? value r) && (value r <? 2 ^ bits r).

(** Byte [k] (counted from the field's offset) of the big-endian form of
    the value of row [r]. *)
Definition field_byte (r : row) (k : Z) : Z :=
  (value r / 256 ^ (bits r / 8 - 1 - k)) mod 256.

(** Modelled from the spec: the decoder of [BinaryFrameCodec], which is
    not part of the utility module.  It is "the same addressing scheme
    applied to read rather than write at each offset/width": the loop of
    [createArrayBuffer] over rows [(bits, byteOffset)], with [getInt8],
    [getInt16] and [getInt32] in the place of [setInt8], [setInt16] and
    [setInt32], collecting the values read. *)
Fixpoint decode_loop (fields : list (Z * Z)) (view : list Z)
    (values : list Z) (console : list string)
    : list string * completion (list Z) :=
  match fields with
  | [] => (console, Normal values)
  | (width, offset) :: rest =>
      if (width =? 8) || (width =? 16) || (width =? 32) then
        match getInt width view offset with
        | Normal v => decode_loop rest view (values ++ [v]) console
        | Throw e => (console, Throw e)
        end
      else
        decode_loop rest view values
          (console ++ ["Invalid parameters to createArrayBuffer"])
  end.

Definition decode (view : list Z) (fields : list (Z * Z))
    : list string * completion (list Z) :=
  decode_loop fields view [] [].

(** Modelled from the spec: the same decoder reading unsigned numbers,
    with [getUint8], [getUint16] and [getUint32]. *)
Fixpoint decodeUnsigned_loop (fields : list (Z * Z)) (view : list Z)
    (values : list Z) (console : list string)
    : list string * completion (list Z) :=
  match fields with
  | [] => (console, Normal values)
  | (width, offset) :: rest =>
      if (width =? 8) || (width =? 16) || (width =? 32) then
        match getUint width view offset with
        | Normal v => decodeUnsigned_loop rest view (values ++ [v]) console
        | Throw e => (console, Throw e)
        end
      else
        decodeUnsigned_loop rest view values
          (console ++ ["Invalid parameters to createArrayBuffer"])
  end.

Definition decodeUnsigned (view : list Z) (fields : list (Z * Z))
    : list string * completion (list Z) :=
  decodeUnsigned_loop fields view [] [].

(** The offsets and widths of a field-spec list. *)
Definition layout (matrix : list row) : list (Z * Z) :=
  (λ r, (bits r, byteOffset r)) <$> matrix.

(** The width of row [r] is one [createArrayBuffer] writes. *)
Definition width_ok (r : row) : bool :=
  (bits r =? 8) || (bits r =? 16) || (bits r =? 32).

(** The field of row [r] lies in a buffer of [size] bytes. *)
Definition in_bounds (size : Z) (r : row) : bool :=
  (0 <=? byteOffset r) && (byteOffset r + bits r / 8 <=? size).

(** A byte. *)
Definition is_byte (b : Z) : Prop := 0 ≤ b < 256.

(** The [RangeError] of a [DataView] access outside the view. *)
Definition out_of_bounds : exn :=
  RangeError "Offset is outside the bounds of the DataView".

End Spec.
Import Spec.

(** Evaluates the closed powers of the goal. *)
Ltac eval_pows :=
  repeat match goal with
         | |- context [?b ^ ?e] =>
             let v := eval vm_compute in (b ^ e) in
             progress change (b ^ e) with v
         end.

(** ** Completions *)

Lemma bind_Normal {A B} (c : completion A) (k : A → completion B) (b : B) :
  bind c k = Normal b → ∃ a, c = Normal a ∧ k a = Normal b.
Proof. destruct c as [a|e]; simpl; [eauto | discriminate]. Qed.

(** ** [Math.max] and [indexOf] *)

Lemma number_max_cases (a b : number) :
  number_max a b = a ∨ number_max a b = b.
Proof.
  destruct a as [|x], b as [|y]; simpl; auto.
  destruct (Z.max_spec x y) as [[_ ->] | [_ ->]]; auto.
Qed.

Lemma fold_number_max_elem (xs : list number) (acc : number) :
  fold_left number_max xs acc = acc ∨ fold_left number_max xs acc ∈ xs.
Proof.
  revert acc. induction xs as [|x xs IH]; intros acc; simpl; [by left|].
  destruct (IH (number_max acc x)) as [-> | Hin].
  - destruct (number_max_cases acc x) as [-> | ->]; [by left | right; left].
  - right. by right.
Qed.

(** The maximum of a non-empty array is one of its elements. *)
Lemma Math_max_elem (xs : list number) :
  xs ≠ [] → Math_max xs ∈ xs.
Proof.
  intros Hne. unfold Math_max.
  destruct (fold_number_max_elem xs NegInfinity) as [Heq | Hin]; [|done].
  destruct xs as [|x xs]; [done|]. simpl in *.
  destruct x as [|z]; [rewrite Heq; left|].
  destruct (fold_number_max_elem xs (Num z)) as [-> | Hin]; [left | by right].
Qed.

Lemma indexOf_from_elem {A} `{EqDecision A} (xs : list A) (v : A) (i : Z) :
  v ∈ xs →
  ∃ k : nat, indexOf_from xs v i = i + Z.of_nat k ∧ xs !! k = Some v ∧
             ∀ j, (j < k)%nat → xs !! j ≠ Some v.
Proof.
  revert i. induction xs as [|x xs IH]; intros i Hin; [by inversion Hin|].
  simpl. destruct (decide (x = v)) as [-> | Hne].
  - exists 0%nat. split_and!; [lia | done | intros j; lia].
  - inversion Hin; subst; [done|].
    destruct (IH (i + 1)) as (k & Hk & Hlook & Hfirst); [done|].
    exists (S k). split_and!; [lia | done |].
    intros [|j] Hj; simpl; [congruence | apply Hfirst; lia].
Qed.

Lemma indexOf_from_not_elem {A} `{EqDecision A} (xs : list A) (v : A) (i : Z) :
  v ∉ xs → indexOf_from xs v i = -1.
Proof.
  revert i. induction xs as [|x xs IH]; intros i Hnin; [done|].
  simpl. destruct (decide (x = v)) as [-> | Hne].
  - exfalso. apply Hnin. left.
  - apply IH. intros Hin. apply Hnin. by right.
Qed.

(** [indexOf] answers [-1] exactly for the values the array does not hold. *)
Lemma indexOf_minus_one {A} `{EqDecision A} (xs : list A) (v : A) :
  (indexOf xs v =? -1) = bool_decide (v ∉ xs).
Proof.
  unfold indexOf. destruct (decide (v ∈ xs)) as [Hin | Hnin].
  - destruct (indexOf_from_elem xs v 0 Hin) as (k & -> & _).
    rewrite bool_decide_eq_false_2 by tauto. apply Z.eqb_neq. lia.
  - rewrite indexOf_from_not_elem by done.
    by rewrite bool_decide_eq_true_2.
Qed.

Lemma fold_number_max_Num (zs : list Z) (a : Z) :
  fold_left number_max (Num <$> zs) (Num a) = Num (fold_left Z.max zs a).
Proof. revert a. induction zs as [|z zs IH]; intros a; [done|]. apply IH. Qed.

Lemma fold_Z_max_upper (zs : list Z) (a : Z) :
  a ≤ fold_left Z.max zs a ∧ ∀ z, z ∈ zs → z ≤ fold_left Z.max zs a.
Proof.
  revert a. induction zs as [|z zs IH]; intros a; simpl.
  - split; [lia|]. intros z Hz. by inversion Hz.
  - destruct (IH (Z.max a z)) as [Hge Hall]. split; [lia|].
    intros z' [-> | Hin]%elem_of_cons; [lia | by apply Hall].
Qed.

(** The maximum of a non-empty array of integers is an upper bound of it. *)
Lemma Math_max_upper (zs : list Z) :
  zs ≠ [] →
  ∃ m, Math_max (Num <$> zs) = Num m ∧ ∀ z, z ∈ zs → z ≤ m.
Proof.
  destruct zs as [|z0 zs]; [done|]. intros _.
  unfold Math_max. cbn [fmap list_fmap fold_left number_max].
  rewrite fold_number_max_Num. eexists. split; [done|].
  destruct (fold_Z_max_upper zs z0) as [Hge Hall].
  intros z [-> | Hin]%elem_of_cons; [done | by apply Hall].
Qed.

(** [indexOf] of the maximum is the first position that holds the
    greatest value. *)
Lemma indexOf_Math_max (zs : list Z) :
  zs ≠ [] →
  ∃ (i : nat) (m : Z),
    indexOf (Num <$> zs) (Math_max (Num <$> zs)) = Z.of_nat i ∧
    zs !! i = Some m ∧
    (∀ j z, zs !! j = Some z → z ≤ m) ∧
    (∀ j z, (j < i)%nat → zs !! j = Some z → z < m).
Proof.
  intros Hne. destruct (Math_max_upper zs Hne) as (m & Hmax & Hupper).
  assert (Num m ∈ Num <$> zs) as Hin.
  { rewrite <- Hmax. apply Math_max_elem. by destruct zs. }
  destruct (indexOf_from_elem (Num <$> zs) (Num m) 0 Hin) as (i & Hi & Hlook & Hfirst).
  exists i, m. unfold indexOf. rewrite Hmax, Hi.
  rewrite list_lookup_fmap in Hlook.
  destruct (zs !! i) as [m'|] eqn:Hzi; [|discriminate].
  injection Hlook as ->.
  split_and!; [lia | done | |].
  - intros j z Hj. apply Hupper. by eapply list_elem_of_lookup_2.
  - intros j z Hj Hz.
    assert (z ≤ m) by (apply Hupper; by eapply list_elem_of_lookup_2).
    assert (z ≠ m); [|lia].
    intros ->. apply (Hfirst j Hj). by rewrite list_lookup_fmap, Hz.
Qed.

(** ** [ipaddr.js]: parsing and matching *)

Lemma matchCIDR_loop_fuel (fuel : nat) (first second : list Z)
    (partSize cidrBits : Z) (part : nat) :
  0 < partSize → Z.max 0 cidrBits < Z.of_nat fuel →
  matchCIDR_loop fuel first second partSize cidrBits part ≠ None.
Proof.
  intros Hps. revert cidrBits part.
  induction fuel as [|fuel IH]; intros cidrBits part Hlt; [lia|].
  simpl. destruct (Z.ltb_spec 0 cidrBits); [|done].
  match goal with |- context [negb ?b] => destruct b end; simpl; [|done].
  apply IH. lia.
Qed.

(** The [while] loop of [matchCIDR] always comes to an end within the
    iterations [matchCIDR] grants it. *)
Lemma matchCIDR_terminates (first second : list Z) (cidrBits : Z) :
  is_Some (matchCIDR_loop (S (Z.to_nat cidrBits)) first second 8 cidrBits 0).
Proof.
  destruct (matchCIDR_loop _ _ _ _ _ _) eqn:E; [eauto|].
  exfalso. revert E. apply matchCIDR_loop_fuel; lia.
Qed.

Lemma parse_octets (s : string) (ip : IPv4) :
  parse s = Normal ip → length (octets ip) = 4%nat.
Proof.
  unfold parse, parser, new_IPv4.
  destruct (parts_of s None []) as [ps|]; [|discriminate].
  destruct (Nat.eqb (length ps) 4) eqn:Hlen; [|discriminate].
  rewrite Hlen. cbn [negb]. destruct (forallb _ ps); [|discriminate].
  intros [= <-]. cbn [octets]. by apply Nat.eqb_eq.
Qed.

Lemma IPv4_match_Normal (a b : IPv4) (mask : Z) :
  length (octets a) = length (octets b) →
  ∃ r, IPv4_match a b mask = Normal r.
Proof.
  intros Hlen. unfold IPv4_match, matchCIDR.
  rewrite Hlen, Nat.eqb_refl. cbn [negb].
  destruct (matchCIDR_loop _ _ _ _ _ _); eauto.
Qed.

(** Matching on 8 bits compares the first octets. *)
Lemma IPv4_match_8 (a b : IPv4) :
  IPv4_match a b 8 = Normal true →
  nth 0 (octets a) 0 = nth 0 (octets b) 0.
Proof.
  unfold IPv4_match, matchCIDR.
  destruct (negb _); [discriminate|].
  cbn. rewrite !Z.shiftr_0_r.
  destruct (Z.eqb_spec (nth 0 (octets a) 0) (nth 0 (octets b) 0)); [done|].
  simpl. discriminate.
Qed.

Lemma parse_octets_ok (s : string) (ip : IPv4) :
  parse s = Normal ip → octets_ok ip.
Proof.
  unfold parse, parser, new_IPv4.
  destruct (parts_of s None []) as [ps|]; [|discriminate].
  destruct (Nat.eqb (length ps) 4) eqn:Hlen; [|discriminate].
  rewrite Hlen. cbn [negb]. destruct (forallb _ ps) eqn:Hall; [|discriminate].
  intros [= <-]. cbn [octets]. apply Nat.eqb_eq in Hlen.
  destruct ps as [|a [|b [|c [|d [|? ?]]]]]; try discriminate.
  exists a, b, c, d. split; [done|].
  simpl in Hall. rewrite !andb_true_iff, !Z.leb_le in Hall. lia.
Qed.

(** Matching on [mask] bits compares the [mask] leading bits of the two
    32-bit words. *)
Lemma IPv4_match_word (a b : IPv4) (mask : Z) :
  octets_ok a → octets_ok b → 1 ≤ mask ≤ 31 →
  IPv4_match a b mask =
    Normal (Z.shiftr (word a) (32 - mask) =? Z.shiftr (word b) (32 - mask)).
Proof.
  intros (a0 & a1 & a2 & a3 & Ha & ? & ? & ? & ?)
         (b0 & b1 & b2 & b3 & Hb & ? & ? & ? & ?) Hmask.
  unfold IPv4_match, word. rewrite Ha, Hb. clear Ha Hb.
  assert (mask = Z.of_nat (Z.to_nat mask)) as -> by lia.
  assert (1 ≤ Z.to_nat mask ≤ 31)%nat as Hk by lia.
  remember (Z.to_nat mask) as k eqn:Hkeq. clear Hkeq Hmask mask.
  do 32 (try destruct k as [|k]); try lia; clear Hk.
  all: lazymatch goal with
       | |- ?l = _ => let l' := eval cbv -[Z.shiftr Z.eqb] in l in change l with l'
       end.
  all: unfold fromBytes; cbn [fold_left].
  all: lazymatch goal with
       | |- context [32 - ?m] => let v := eval vm_compute in (32 - m) in
                                 change (32 - m) with v
       end.
  all: rewrite !Z.shiftr_div_pow2 by lia; eval_pows.
  all: repeat match goal with
              | |- context [Z.eqb ?x ?y] => destruct (Z.eqb_spec x y)
              end; cbn [negb]; try reflexivity; exfalso;
       Z.div_mod_to_equations; lia.
Qed.

Lemma same_top_mono (x y j k : Z) :
  0 ≤ j ≤ k → k ≤ 32 → same_top x y k = true → same_top x y j = true.
Proof.
  unfold same_top. rewrite !Z.eqb_eq. intros Hj Hk Heq.
  replace (32 - j) with ((32 - k) + (k - j)) by lia.
  rewrite <- !Z.shiftr_shiftr by lia. by rewrite Heq.
Qed.

Lemma common_prefix_spec (n : nat) (x y : Z) :
  0 ≤ common_prefix n x y ≤ Z.of_nat n ∧
  (common_prefix n x y = 0 ∨ same_top x y (common_prefix n x y) = true) ∧
  ∀ k, common_prefix n x y < k ≤ Z.of_nat n → same_top x y k = false.
Proof.
  induction n as [|n (Hrange & Htop & Habove)].
  - simpl. split_and!; [lia | lia | by left | intros k; lia].
  - cbn [common_prefix]. fold (same_top x y (Z.of_nat (S n))).
    destruct (same_top x y (Z.of_nat (S n))) eqn:Hs.
    + split_and!; [lia | lia | by right | intros k; lia].
    + split_and!; [lia | lia | done |].
      intros k Hk. destruct (decide (k = Z.of_nat (S n))) as [-> | Hne]; [done|].
      apply Habove. lia.
Qed.

Lemma maskLoop_spec (n : nat) (mask : Z) (a b : IPv4) :
  octets_ok a → octets_ok b → 1 ≤ mask → mask + Z.of_nat n ≤ 32 →
  ∃ r, maskLoop n mask a b = Normal r ∧
       match r with
       | Some v =>
           mask - 1 ≤ v < mask - 1 + Z.of_nat n ∧
           same_top (word a) (word b) (v + 1) = false ∧
           ∀ k, mask ≤ k ≤ v → same_top (word a) (word b) k = true
       | None =>
           ∀ k, mask ≤ k < mask + Z.of_nat n → same_top (word a) (word b) k = true
       end.
Proof.
  intros Ha Hb. revert mask. induction n as [|n IH]; intros mask Hlo Hhi.
  - exists None. split; [done|]. intros k; lia.
  - cbn [maskLoop]. rewrite IPv4_match_word by (done || lia). cbn [bind].
    fold (same_top (word a) (word b) mask).
    destruct (same_top (word a) (word b) mask) eqn:Hs; cbn [negb].
    + destruct (IH (mask + 1)) as (r & -> & Hr); [lia | lia |].
      exists r. split; [done|]. destruct r as [v|].
      * destruct Hr as (Hv & Hfail & Hbelow). split_and!; [lia | lia | done |].
        intros k Hk. destruct (decide (k = mask)) as [-> | Hne]; [done|].
        apply Hbelow. lia.
      * intros k Hk. destruct (decide (k = mask)) as [-> | Hne]; [done|].
        apply Hr. lia.
    + exists (Some (mask - 1)). split; [done|].
      split_and!; [lia | lia | by replace (mask - 1 + 1) with mask by lia |].
      intros k; lia.
Qed.

(** The inner loop pushes the shared prefix length, unless that is 31 or
    32, in which case it pushes nothing. *)
Lemma maskLoop_shared_bits (a b : IPv4) :
  octets_ok a → octets_ok b →
  maskLoop 31 1 a b =
    Normal (if shared_bits a b <? 31 then Some (shared_bits a b) else None).
Proof.
  intros Ha Hb.
  destruct (maskLoop_spec 31 1 a b Ha Hb) as (r & -> & Hr); [lia | lia |].
  f_equal. unfold shared_bits.
  destruct (common_prefix_spec 32 (word a) (word b)) as (Hrange & Htop & Habove).
  set (P := common_prefix 32 (word a) (word b)) in *.
  destruct r as [v|].
  - destruct Hr as (Hv & Hfail & Hbelow).
    assert (P = v) as ->.
    { destruct (Z.lt_trichotomy P v) as [Hlt | [Heq | Hgt]]; [|done|].
      - specialize (Habove v ltac:(lia)). rewrite Hbelow in Habove by lia.
        discriminate.
      - destruct Htop as [H0 | Htop]; [lia|].
        rewrite (same_top_mono _ _ (v + 1) P) in Hfail; [discriminate | lia | lia | done]. }
    replace (v <? 31) with true by (symmetry; apply Z.ltb_lt; lia). done.
  - destruct (Z.ltb_spec P 31) as [Hlt | Hge]; [|done].
    specialize (Habove 31 ltac:(lia)). rewrite Hr in Habove by lia.
    discriminate.
Qed.

(** ** [longestPrefixMatch] *)

Lemma maskLoop_Normal (n : nat) (mask : Z) (ip matchIp : IPv4) :
  length (octets ip) = length (octets matchIp) →
  ∃ r, maskLoop n mask ip matchIp = Normal r.
Proof.
  intros Hlen. revert mask. induction n as [|n IH]; intros mask; simpl; [eauto|].
  destruct (IPv4_match_Normal ip matchIp mask Hlen) as [m ->]. simpl.
  destruct m; simpl; eauto.
Qed.

(** When the inner loop pushes nothing, every mask it tried matched. *)
Lemma maskLoop_None (n : nat) (mask : Z) (ip matchIp : IPv4) (k : nat) :
  maskLoop n mask ip matchIp = Normal None → (k < n)%nat →
  IPv4_match ip matchIp (mask + Z.of_nat k) = Normal true.
Proof.
  revert mask k. induction n as [|n IH]; intros mask k Hloop Hk; [lia|].
  simpl in Hloop. apply bind_Normal in Hloop as (m & Hm & Hrest).
  destruct m; simpl in Hrest; [|discriminate].
  destruct k as [|k]; [by rewrite Z.add_0_r|].
  replace (mask + Z.of_nat (S k)) with (mask + 1 + Z.of_nat k) by lia.
  apply IH; [done | lia].
Qed.

(** The outer loop pushes at most one number per entry, and at least one
    when some entry differs from [matchIp] in its first octet. *)
Lemma prefixLoop_spec (ipList : list string) (matchIp : IPv4) (acc : list number) :
  length (octets matchIp) = 4%nat →
  Forall (λ s, ∃ ip, parse s = Normal ip) ipList →
  ∃ pushed,
    prefixLoop ipList matchIp acc = Normal (acc ++ pushed) ∧
    (length pushed ≤ length ipList)%nat ∧
    Forall (λ x, x ≠ NegInfinity) pushed ∧
    (∀ s ip, s ∈ ipList → parse s = Normal ip →
       nth 0 (octets ip) 0 ≠ nth 0 (octets matchIp) 0 → pushed ≠ []).
Proof.
  intros Hm. revert acc.
  induction ipList as [|s rest IH]; intros acc Hall; cbn [prefixLoop].
  - exists []. rewrite app_nil_r. repeat split; auto.
    intros s ip Hin. by inversion Hin.
  - inversion Hall as [|? ? [ip Hip] Hrest]; subst.
    rewrite Hip. cbn [bind].
    destruct (maskLoop_Normal 31 1 ip matchIp) as [r Hr].
    { rewrite Hm. by apply parse_octets in Hip. }
    rewrite Hr. cbn [bind].
    destruct r as [v|].
    + destruct (IH (acc ++ [Num v]) Hrest) as (pushed & Heq & Hlen & Hfin & _).
      exists (Num v :: pushed). rewrite Heq, <- app_assoc.
      split_and!; [done | simpl; lia | by constructor | done].
    + destruct (IH acc Hrest) as (pushed & Heq & Hlen & Hfin & Hne).
      exists pushed. split_and!; [done | simpl; lia | done |].
      intros s' ip' Hin Hip' Hoct.
      inversion Hin; subst; [|by eapply Hne].
      exfalso. apply Hoct.
      assert (ip' = ip) as -> by congruence.
      apply IPv4_match_8. change 8 with (1 + Z.of_nat 7).
      apply (maskLoop_None 31); [done | lia].
Qed.

(** Whenever the loops push at least one number, the function returns an
    entry of the list. *)
Lemma longestPrefixMatch_elem (ipList : list string) (matchIp : string)
    (ip : IPv4) (s : string) (sip : IPv4) :
  parse matchIp = Normal ip →
  Forall (λ s, ∃ ip, parse s = Normal ip) ipList →
  s ∈ ipList → parse s = Normal sip →
  nth 0 (octets sip) 0 ≠ nth 0 (octets ip) 0 →
  ∃ g, longestPrefixMatch ipList matchIp = Normal (Some g) ∧ g ∈ ipList.
Proof.
  intros Hip Hall Hin Hs Hoct. unfold longestPrefixMatch. rewrite Hip. simpl.
  destruct (prefixLoop_spec ipList ip [] (parse_octets _ _ Hip) Hall)
    as (pm & -> & Hlen & Hfin & Hne). simpl.
  specialize (Hne s sip Hin Hs Hoct).
  destruct (indexOf_from_elem pm (Math_max pm) 0 (Math_max_elem pm Hne))
    as (k & Hk & Hlook & _).
  unfold indexOf. rewrite Hk. unfold index.
  replace (0 + Z.of_nat k <? 0) with false by (symmetry; apply Z.ltb_ge; lia).
  replace (Z.to_nat (0 + Z.of_nat k)) with k by lia.
  apply lookup_lt_Some in Hlook.
  destruct (lookup_lt_is_Some_2 ipList k) as [g Hg]; [lia|].
  exists g. split; [by rewrite Hg|]. by eapply list_elem_of_lookup_2.
Qed.

Lemma ROUTER_IPS_parse :
  Forall (λ s, ∃ ip, parse s = Normal ip) ROUTER_IPS.
Proof. unfold ROUTER_IPS. repeat constructor; eexists; vm_compute; reflexivity. Qed.

(** For the fixed table the function always answers with a table entry:
    the table holds addresses in [192.*] and in [10.*], and no address
    starts with both octets. *)
Lemma longestPrefixMatch_ROUTER_IPS (privateIp : string) (ip : IPv4) :
  parse privateIp = Normal ip →
  ∃ g, longestPrefixMatch ROUTER_IPS privateIp = Normal (Some g) ∧ g ∈ ROUTER_IPS.
Proof.
  intros Hip.
  destruct (Z.eq_dec (nth 0 (octets ip) 0) 192) as [H192 | H192].
  - apply (longestPrefixMatch_elem ROUTER_IPS privateIp ip "10.0.1.1"
             {| octets := [10; 0; 1; 1] |});
      [done | apply ROUTER_IPS_parse | unfold ROUTER_IPS; repeat constructor
      | reflexivity | simpl; lia].
  - apply (longestPrefixMatch_elem ROUTER_IPS privateIp ip "192.168.1.1"
             {| octets := [192; 168; 1; 1] |});
      [done | apply ROUTER_IPS_parse | unfold ROUTER_IPS; repeat constructor
      | reflexivity | simpl; lia].
Qed.

(** The numbers the outer loop collects. *)
Lemma prefixLoop_pushed (ipList : list string) (matchIp : IPv4) (acc : list number) :
  octets_ok matchIp →
  Forall (λ s, ∃ ip, parse s = Normal ip) ipList →
  prefixLoop ipList matchIp acc = Normal (acc ++ omap (pushed_for matchIp) ipList).
Proof.
  intros Hm Hall. revert acc.
  induction Hall as [|s rest [ip Hip] Hrest IH]; intros acc.
  - simpl. by rewrite app_nil_r.
  - cbn [prefixLoop]. rewrite Hip. cbn [bind].
    rewrite maskLoop_shared_bits by eauto using parse_octets_ok. cbn [bind].
    rewrite IH. csimpl. unfold pushed_for at 2. rewrite Hip.
    destruct (_ <? 31); [by rewrite <- app_assoc | done].
Qed.

Lemma shared_prefix_parsed (s matchIp : string) (ip m : IPv4) :
  parse s = Normal ip → parse matchIp = Normal m →
  shared_prefix s matchIp = shared_bits ip m.
Proof. intros Hs Hm. unfold shared_prefix. by rewrite Hs, Hm. Qed.

(** When no entry of the list shares 31 or more leading bits with the
    address, [longestPrefixMatch] returns the first entry among those that
    share the most. *)
Theorem longestPrefixMatch_longest (ipList : list string) (matchIp : string) :
  ipList ≠ [] →
  (∃ m, parse matchIp = Normal m) →
  Forall (λ s, (∃ ip, parse s = Normal ip) ∧ shared_prefix s matchIp < 31) ipList →
  ∃ (i : nat) (g : string),
    longestPrefixMatch ipList matchIp = Normal (Some g) ∧
    ipList !! i = Some g ∧
    (∀ j s, ipList !! j = Some s →
            shared_prefix s matchIp ≤ shared_prefix g matchIp) ∧
    (∀ j s, (j < i)%nat → ipList !! j = Some s →
            shared_prefix s matchIp < shared_prefix g matchIp).
Proof.
  intros Hne [m Hm] Hall.
  assert (Forall (λ s, ∃ ip, parse s = Normal ip) ipList) as Hparse
    by (eapply Forall_impl; [exact Hall | by intros s [? _]]).
  unfold longestPrefixMatch. rewrite Hm. cbn [bind].
  rewrite prefixLoop_pushed by eauto using parse_octets_ok. cbn [bind app].
  assert (omap (pushed_for m) ipList
          = Num <$> ((λ s, shared_prefix s matchIp) <$> ipList)) as ->.
  { clear Hne Hparse. induction Hall as [|s rest [[ip Hip] Hlt] Hrest IH]; [done|].
    csimpl. rewrite <- IH. unfold pushed_for at 1. rewrite Hip.
    rewrite (shared_prefix_parsed s matchIp ip m Hip Hm) in *.
    replace (shared_bits ip m <? 31) with true by (symmetry; by apply Z.ltb_lt).
    done. }
  destruct (indexOf_Math_max ((λ s, shared_prefix s matchIp) <$> ipList))
    as (i & p & -> & Hi & Hupper & Hfirst).
  { by destruct ipList. }
  rewrite list_lookup_fmap in Hi.
  destruct (ipList !! i) as [g|] eqn:Hg; [|discriminate].
  injection Hi as <-.
  exists i, g. unfold index.
  replace (Z.of_nat i <? 0) with false by (symmetry; apply Z.ltb_ge; lia).
  rewrite Nat2Z.id, Hg. split_and!; [done | done | |].
  - intros j s Hs. apply (Hupper j). by rewrite list_lookup_fmap, Hs.
  - intros j s Hj Hs. apply (Hfirst j); [done|]. by rewrite list_lookup_fmap, Hs.
Qed.

(** The scenario of the specification: for [192.168.1.37] and a table
    with [192.168.1.1] and [192.168.0.1] the answer is [192.168.1.1]. *)
Example longestPrefixMatch_scenario :
  longestPrefixMatch ["192.168.1.1"; "192.168.0.1"] "192.168.1.37"
    = Normal (Some "192.168.1.1") ∧
  shared_prefix "192.168.1.1" "192.168.1.37" = 26 ∧
  shared_prefix "192.168.0.1" "192.168.1.37" = 23.
Proof. split_and!; vm_compute; reflexivity. Qed.

(** C2: [longestPrefixMatch] does not always return an entry of the list.
    When the address to match shares at least 31 leading bits with every
    entry (here it is the only entry), the inner loop never pushes, the
    argmax is taken over an empty array, [indexOf] answers [-1] and the
    function returns [undefined]. *)
Theorem longestPrefixMatch_undefined :
  "192.168.1.1" ∈ ["192.168.1.1"] ∧
  (∃ ip, parse "192.168.1.1" = Normal ip) ∧
  longestPrefixMatch ["192.168.1.1"] "192.168.1.1" = Normal None.
Proof.
  split_and!; [left | eexists; vm_compute; reflexivity | vm_compute; reflexivity].
Qed.

(** Skipped entries also shift the positions of the later ones, so the
    answer can be an entry that shares no bit with the address. *)
Example longestPrefixMatch_shifted :
  longestPrefixMatch ["10.0.0.1"; "192.168.1.1"; "10.0.0.9"] "10.0.0.1"
    = Normal (Some "192.168.1.1").
Proof. vm_compute. reflexivity. Qed.

(** C1: the gateway chosen for a private address is not always the table
    entry with the longest shared prefix.  For [192.168.0.31] the table
    holds [192.168.0.30], which shares 31 bits, and the function answers
    [192.168.0.1], which shares 27. *)
Theorem filterRouterIps_not_longest :
  filterRouterIps ["192.168.0.31"] = Normal [Some "192.168.0.1"] ∧
  "192.168.0.30" ∈ ROUTER_IPS ∧
  shared_prefix "192.168.0.30" "192.168.0.31" = 31 ∧
  shared_prefix "192.168.0.1" "192.168.0.31" = 27.
Proof.
  split_and!; try (vm_compute; reflexivity).
  unfold ROUTER_IPS. repeat constructor.
Qed.

(** ** [filterRouterIps] *)

Lemma filterRouterIps_loop_spec (privateIps : list string)
    (acc : list (option string)) :
  Forall (λ p, ∃ ip, parse p = Normal ip) privateIps →
  ∃ routerIps,
    filterRouterIps_loop privateIps acc = Normal (acc ++ (Some <$> routerIps)) ∧
    Forall2 (λ p g, g ∈ ROUTER_IPS ∧
                    longestPrefixMatch ROUTER_IPS p = Normal (Some g))
      privateIps routerIps.
Proof.
  revert acc. induction privateIps as [|p rest IH]; intros acc Hall.
  - exists []. simpl. rewrite app_nil_r. split; [done | constructor].
  - inversion Hall as [|? ? [ip Hip] Hrest]; subst.
    destruct (longestPrefixMatch_ROUTER_IPS p ip Hip) as (g & Hg & Hin).
    destruct (IH (acc ++ [Some g]) Hrest) as (gs & Heq & Hall2).
    exists (g :: gs). cbn [filterRouterIps_loop]. rewrite Hg. cbn [bind].
    rewrite Heq, <- app_assoc. split; [done|]. by constructor.
Qed.

(** C9: [filterRouterIps] returns one table entry per private address, in
    the order of the private addresses, and the empty list for no private
    address. *)
Theorem filterRouterIps_one_per_address (privateIps : list string) :
  Forall (λ p, ∃ ip, parse p = Normal ip) privateIps →
  ∃ routerIps,
    filterRouterIps privateIps = Normal (Some <$> routerIps) ∧
    length routerIps = length privateIps ∧
    Forall2 (λ p g, g ∈ ROUTER_IPS ∧
                    longestPrefixMatch ROUTER_IPS p = Normal (Some g))
      privateIps routerIps ∧
    (privateIps = [] → filterRouterIps privateIps = Normal []).
Proof.
  intros Hall.
  destruct (filterRouterIps_loop_spec privateIps [] Hall) as (gs & Heq & Hall2).
  exists gs. split_and!; [done | | done | by intros ->].
  symmetry. by eapply Forall2_length.
Qed.

Lemma filterRouterIps_one_per_address_witness :
  ∃ routerIps,
    filterRouterIps ["192.168.1.37"; "10.0.0.7"] = Normal (Some <$> routerIps) ∧
    length routerIps = length ["192.168.1.37"; "10.0.0.7"] ∧
    Forall2 (λ p g, g ∈ ROUTER_IPS ∧
                    longestPrefixMatch ROUTER_IPS p = Normal (Some g))
      ["192.168.1.37"; "10.0.0.7"] routerIps ∧
    (["192.168.1.37"; "10.0.0.7"] = [] →
     filterRouterIps ["192.168.1.37"; "10.0.0.7"] = Normal []).
Proof.
  apply (filterRouterIps_one_per_address ["192.168.1.37"; "10.0.0.7"]).
  repeat constructor; eexists; vm_compute; reflexivity.
Defined.

(** ** [Mapping] *)

(** C10: a freshly constructed [Mapping] carries the sentinel [-1] as its
    external port, and every other field is [undefined]. *)
Theorem new_Mapping_fields (F : Type) :
  let m := new_Mapping F in
  externalPort F m = Some (-1) ∧
  internalIp F m = None ∧ internalPort F m = None ∧ externalIp F m = None ∧
  lifetime F m = None ∧ protocol F m = None ∧ timeoutId F m = None ∧
  nonce F m = None ∧ deleter F m = None ∧ errInfo F m = None.
Proof. simpl. by split_and!. Qed.

(** ** Array reconciliation: [arrAdd] and [arrDiff] *)

Section ArrayFacts.

Context {A : Type} `{EqDecision A}.
Implicit Types (l seen listA listB : list A) (x : A).

(** [keep_first] looks at [seen] as a set only. *)
Lemma keep_first_ext seen seen' l :
  (∀ x, x ∈ seen ↔ x ∈ seen') → keep_first seen l = keep_first seen' l.
Proof.
  intros Hext. unfold keep_first. apply list_omap_ext, Forall2_same_length_lookup.
  split; [done|]. intros k i j Hi Hj. assert (i = j) as -> by congruence.
  destruct (l !! j) as [x|]; simpl; [|done].
  apply decide_ext. rewrite !elem_of_app, Hext. tauto.
Qed.

Lemma keep_first_nil seen : keep_first seen [] = [].
Proof. done. Qed.

Lemma keep_first_cons seen x l :
  keep_first seen (x :: l) =
    if decide (x ∈ seen) then keep_first seen l
    else x :: keep_first (seen ++ [x]) l.
Proof.
  assert (∀ seen',
    (∀ y, y ∈ seen' ↔ y ∈ x :: seen) →
    omap (λ i, y ← (x :: l) !! i;
               if decide (y ∈ seen ++ take i (x :: l)) then None else Some y)
         (seq 1 (length l)) = keep_first seen' l) as Htail.
  { intros seen' Hext. unfold keep_first.
    apply list_omap_ext, Forall2_same_length_lookup.
    split; [by rewrite !length_seq|]. intros k i j Hi Hj.
    apply lookup_seq in Hi as [-> ?], Hj as [-> ?]. simpl.
    destruct (l !! k) as [y|]; simpl; [|done].
    apply decide_ext. rewrite !elem_of_app, Hext, !elem_of_cons. tauto. }
  unfold keep_first at 1. cbn [length seq]. csimpl.
  rewrite app_nil_r.
  destruct (decide (x ∈ seen)) as [Hin | Hnin].
  - apply Htail. intros y. rewrite elem_of_cons. split; [tauto|].
    intros [-> | ?]; done.
  - f_equal. apply Htail. intros y.
    rewrite elem_of_app, list_elem_of_singleton, elem_of_cons. tauto.
Qed.

Lemma keep_first_app seen l1 l2 :
  keep_first seen (l1 ++ l2) = keep_first seen l1 ++ keep_first (seen ++ l1) l2.
Proof.
  revert seen. induction l1 as [|x l1 IH]; intros seen; cbn [app].
  - by rewrite keep_first_nil, app_nil_r.
  - rewrite !keep_first_cons. destruct (decide (x ∈ seen)) as [Hin | Hnin].
    + rewrite IH. f_equal. apply keep_first_ext. intros y.
      rewrite !elem_of_app, elem_of_cons. split; [tauto|].
      intros [? | [-> | ?]]; tauto.
    + rewrite IH, <- app_assoc. done.
Qed.

Lemma elem_of_keep_first seen l x :
  x ∈ seen ++ keep_first seen l ↔ x ∈ seen ++ l.
Proof.
  revert seen. induction l as [|y l IH]; intros seen.
  - by rewrite keep_first_nil.
  - rewrite keep_first_cons. destruct (decide (y ∈ seen)) as [Hin | Hnin].
    + rewrite IH, !elem_of_app, elem_of_cons. split; [tauto|].
      intros [? | [-> | ?]]; tauto.
    + rewrite (cons_middle y seen), (cons_middle y seen l), !app_assoc.
      apply IH.
Qed.

Lemma NoDup_keep_first seen l :
  NoDup seen → NoDup (seen ++ keep_first seen l).
Proof.
  revert seen. induction l as [|y l IH]; intros seen Hnd.
  - by rewrite keep_first_nil, app_nil_r.
  - rewrite keep_first_cons. destruct (decide (y ∈ seen)) as [Hin | Hnin].
    + by apply IH.
    + rewrite (cons_middle y seen), app_assoc. apply IH.
      apply NoDup_app. split_and!; [done | | apply NoDup_singleton].
      intros z Hz ->%list_elem_of_singleton. done.
Qed.

Lemma keep_first_sublist seen l : keep_first seen l `sublist_of` l.
Proof.
  revert seen. induction l as [|y l IH]; intros seen.
  - by rewrite keep_first_nil.
  - rewrite keep_first_cons. destruct (decide (y ∈ seen)).
    + by apply sublist_cons.
    + by apply sublist_skip.
Qed.

(** Each [forEach] of [arrAdd] appends to [sum] the first occurrences of
    the values [sum] does not hold yet. *)
Lemma arrAdd_loop_spec l sum :
  arrAdd_loop l sum = sum ++ keep_first sum l.
Proof.
  revert sum. induction l as [|x l IH]; intros sum; simpl.
  - by rewrite keep_first_nil, app_nil_r.
  - rewrite IH, keep_first_cons, indexOf_minus_one.
    destruct (decide (x ∈ sum)) as [Hin | Hnin].
    + rewrite bool_decide_eq_false_2 by tauto. done.
    + rewrite bool_decide_eq_true_2 by done. by rewrite <- app_assoc.
Qed.

(** C7: [arrAdd(A, B)] is [A] followed by [B] with only the first
    occurrence of every value kept: the elements of [A], then the
    elements of [B] that [A] does not hold, nothing twice, in the order
    of first occurrence. *)
Theorem arrAdd_spec listA listB :
  arrAdd listA listB = first_seen (listA ++ listB) ∧
  arrAdd listA listB = first_seen listA ++ keep_first listA listB ∧
  NoDup (arrAdd listA listB) ∧
  (∀ x, x ∈ arrAdd listA listB ↔ x ∈ listA ∨ x ∈ listB) ∧
  arrAdd listA listB `sublist_of` listA ++ listB.
Proof.
  assert (arrAdd listA listB = first_seen (listA ++ listB)) as Heq.
  { unfold arrAdd, first_seen. rewrite !arrAdd_loop_spec. simpl.
    rewrite keep_first_app. f_equal. apply keep_first_ext. intros x.
    apply (elem_of_keep_first [] listA x). }
  split_and!.
  - done.
  - rewrite Heq. unfold first_seen. by rewrite keep_first_app.
  - rewrite Heq. apply (NoDup_keep_first [] (listA ++ listB)). constructor.
  - intros x. rewrite Heq, <- elem_of_app.
    apply (elem_of_keep_first [] (listA ++ listB) x).
  - rewrite Heq. apply keep_first_sublist.
Qed.

Lemma arrDiff_loop_spec l listB diff :
  arrDiff_loop l listB diff = diff ++ filter (λ a, a ∉ listB) l.
Proof.
  revert diff. induction l as [|x l IH]; intros diff; simpl.
  - by rewrite app_nil_r.
  - rewrite IH, indexOf_minus_one, filter_cons.
    destruct (decide (x ∉ listB)) as [Hnin | Hin].
    + rewrite bool_decide_eq_true_2 by done. by rewrite <- app_assoc.
    + rewrite bool_decide_eq_false_2 by done. done.
Qed.

(** C8, as the code has it: [arrDiff(A, B)] keeps, in the order of [A]
    and as often as [A] holds them, exactly the elements of [A] that [B]
    does not hold; it is free of repetitions whenever [A] is. *)
Theorem arrDiff_spec listA listB :
  arrDiff listA listB = filter (λ a, a ∉ listB) listA ∧
  (∀ x, x ∈ arrDiff listA listB ↔ x ∈ listA ∧ x ∉ listB) ∧
  arrDiff listA listB `sublist_of` listA ∧
  (NoDup listA → NoDup (arrDiff listA listB)).
Proof.
  assert (arrDiff listA listB = filter (λ a, a ∉ listB) listA) as Heq.
  { unfold arrDiff. by rewrite arrDiff_loop_spec. }
  rewrite Heq. split_and!.
  - done.
  - intros x. rewrite list_elem_of_filter. tauto.
  - apply sublist_filter.
  - apply NoDup_filter.
Qed.

End ArrayFacts.

Lemma arrDiff_spec_witness :
  arrDiff ["10.0.0.5"; "192.168.1.37"] ["10.0.0.5"] = ["192.168.1.37"] ∧
  NoDup (arrDiff ["10.0.0.5"; "192.168.1.37"] ["10.0.0.5"]).
Proof.
  destruct (arrDiff_spec ["10.0.0.5"; "192.168.1.37"] ["10.0.0.5"])
    as (Heq & _ & _ & Hnodup).
  split; [reflexivity|]. apply Hnodup.
  apply NoDup_cons. split; [|apply NoDup_singleton].
  intros Hin%list_elem_of_singleton. discriminate.
Defined.

(** C8 as stated does not hold: a value that [A] repeats and [B] lacks is
    repeated in the difference. *)
Lemma arrDiff_keeps_repetitions :
  arrDiff [1; 1] [] = [1; 1] ∧ ¬ NoDup (arrDiff [1; 1] ([] : list Z)).
Proof.
  split; [reflexivity|].
  change (arrDiff [1; 1] []) with [1; 1].
  rewrite NoDup_cons. intros [Hnin _]. apply Hnin. left.
Qed.

(** ** [DataView]: writing and reading big-endian fields *)

Lemma length_store (bs view : list Z) (i : nat) :
  length (store view i bs) = length view.
Proof.
  revert view i. induction bs as [|b bs IH]; intros view i; simpl; [done|].
  by rewrite IH, length_insert.
Qed.

Lemma lookup_store (bs view : list Z) (i j : nat) :
  (i + length bs ≤ length view)%nat →
  store view i bs !! j =
    if decide (i ≤ j < i + length bs)%nat then bs !! (j - i)%nat else view !! j.
Proof.
  revert view i. induction bs as [|b bs IH]; intros view i Hlen; simpl in *.
  - case_decide; [lia | done].
  - rewrite IH by (rewrite length_insert; lia).
    destruct (decide (i = j)) as [-> | Hne].
    + rewrite decide_False by lia. rewrite decide_True by lia.
      rewrite Nat.sub_diag. simpl. apply list_lookup_insert_eq. lia.
    + rewrite list_lookup_insert_ne by done.
      repeat case_decide; try lia; [|done].
      replace (j - i)%nat with (S (j - S i)) by lia. done.
Qed.

Lemma length_rawBytes (n : nat) (x : Z) : length (rawBytes n x) = n.
Proof. induction n as [|n IH]; simpl; [done | by rewrite IH]. Qed.

Lemma lookup_rawBytes (n k : nat) (x : Z) :
  (k < n)%nat →
  rawBytes n x !! k = Some (Z.land (Z.shiftr x (8 * Z.of_nat (n - 1 - k))) 255).
Proof.
  revert k. induction n as [|n IH]; intros k Hk; [lia|].
  destruct k as [|k]; cbn [rawBytes lookup list_lookup].
  - do 4 f_equal. lia.
  - rewrite IH by lia. do 4 f_equal. lia.
Qed.

(** [ToInt] changes its argument by a multiple of [2 ^ bits]. *)
Lemma ToInt_congruent (bits v : Z) :
  0 ≤ bits → ∃ q, ToInt bits v = v + 2 ^ bits * q.
Proof.
  intros Hbits. unfold ToInt.
  assert (0 < 2 ^ bits) as Hpos by (apply Z.pow_pos_nonneg; lia).
  pose proof (Z.div_mod v (2 ^ bits) ltac:(lia)) as Hdm.
  destruct (_ <? _).
  - exists (- (v / 2 ^ bits)). lia.
  - exists (- (v / 2 ^ bits) - 1). lia.
Qed.

(** The bytes written for a value are the bytes of its big-endian two's
    complement form. *)
Lemma rawByte_field_byte (bits v j : Z) :
  0 ≤ j → 8 * (j + 1) ≤ bits →
  Z.land (Z.shiftr (ToInt bits v) (8 * j)) 255 = (v / 256 ^ j) mod 256.
Proof.
  intros Hj Hbits.
  destruct (ToInt_congruent bits v ltac:(lia)) as [q ->].
  change 255 with (Z.ones 8). rewrite Z.land_ones, Z.shiftr_div_pow2 by lia.
  replace bits with (8 * j + (8 + (bits - 8 * j - 8))) by lia.
  rewrite !Z.pow_add_r by lia.
  replace (2 ^ (8 * j)) with (256 ^ j) by (rewrite Z.pow_mul_r by lia; done).
  change (2 ^ 8) with 256.
  assert (0 < 256 ^ j) as Hpos by (apply Z.pow_pos_nonneg; lia).
  replace (v + 256 ^ j * (256 * 2 ^ (bits - 8 * j - 8)) * q)
    with (v + (2 ^ (bits - 8 * j - 8) * q * 256) * 256 ^ j) by lia.
  rewrite Z.div_add by lia.
  by rewrite Z.mod_add by lia.
Qed.

(** ** [createArrayBuffer] *)

Lemma row_ok_inv (size : Z) (r : row) :
  row_ok size r = true →
  ∃ n, (n = 1 ∨ n = 2 ∨ n = 4) ∧ bits r = 8 * n ∧ bits r / 8 = n ∧
       0 ≤ byteOffset r ∧ byteOffset r + n ≤ size.
Proof.
  unfold row_ok. rewrite !andb_true_iff, !orb_true_iff.
  rewrite !Z.eqb_eq, Z.leb_le, Z.leb_le.
  intros [[[[H | H] | H] Hoff] Hend]; rewrite H in *.
  - exists 1. change (8 / 8) with 1 in *. split_and!; auto.
  - exists 2. change (16 / 8) with 2 in *. split_and!; auto.
  - exists 4. change (32 / 8) with 4 in *. split_and!; auto.
Qed.

Lemma covers_spec (r : row) (i : Z) :
  covers r i = true ↔ byteOffset r ≤ i < byteOffset r + bits r / 8.
Proof. unfold covers. rewrite andb_true_iff, Z.leb_le, Z.ltb_lt. tauto. Qed.

(** Writing the field of a valid row changes the bytes the row covers,
    and no other. *)
Lemma setInt_row (view : list Z) (r : row) :
  row_ok (Z.of_nat (length view)) r = true →
  ∃ view',
    setInt (bits r) view (byteOffset r) (value r) = Normal view' ∧
    length view' = length view ∧
    ∀ j : nat,
      view' !! j =
        if covers r (Z.of_nat j)
        then Some (field_byte r (Z.of_nat j - byteOffset r))
        else view !! j.
Proof.
  intros (n & Hn & Hbits & Hdiv & Hoff & Hend)%row_ok_inv.
  unfold setInt. rewrite Hdiv.
  replace ((byteOffset r <? 0) || (Z.of_nat (length view) <? byteOffset r + n))
    with false
    by (symmetry; apply orb_false_iff; split; apply Z.ltb_ge; lia).
  eexists. split_and!; [done | apply length_store |].
  intros j. rewrite lookup_store by (rewrite length_rawBytes; lia).
  rewrite length_rawBytes.
  destruct (covers r (Z.of_nat j)) eqn:Hc.
  - apply covers_spec in Hc. rewrite Hdiv in Hc.
    rewrite decide_True by lia. rewrite lookup_rawBytes by lia.
    f_equal. unfold field_byte. rewrite Hdiv.
    replace (Z.of_nat (Z.to_nat n - 1 - (j - Z.to_nat (byteOffset r))))
      with (n - 1 - (Z.of_nat j - byteOffset r)) by lia.
    apply rawByte_field_byte; lia.
  - rewrite decide_False; [done|].
    intros Hj. apply not_true_iff_false in Hc. apply Hc, covers_spec.
    rewrite Hdiv. lia.
Qed.

Lemma createArrayBuffer_loop_ok_row (r : row) (rest : list row)
    (view : list Z) (console : list string) (size : Z) :
  row_ok size r = true →
  createArrayBuffer_loop (r :: rest) view console =
    match setInt (bits r) view (byteOffset r) (value r) with
    | Normal view' => createArrayBuffer_loop rest view' console
    | Throw e => (console, Throw e)
    end.
Proof.
  intros (n & Hn & Hbits & _)%row_ok_inv. cbn [createArrayBuffer_loop].
  destruct Hn as [-> | [-> | ->]]; rewrite Hbits; reflexivity.
Qed.

(** Rows that are valid for the view are all written, nothing is printed,
    and each byte ends up as its last writer left it. *)
Lemma createArrayBuffer_loop_writer (matrix : list row) (view : list Z)
    (console : list string) :
  Forall (λ r, row_ok (Z.of_nat (length view)) r = true) matrix →
  ∃ view',
    createArrayBuffer_loop matrix view console = (console, Normal view') ∧
    length view' = length view ∧
    ∀ j : nat,
      view' !! j =
        match writer matrix j with
        | Some r => Some (field_byte r (Z.of_nat j - byteOffset r))
        | None => view !! j
        end.
Proof.
  revert view. induction matrix as [|r rest IH]; intros view Hall.
  - exists view. by split_and!.
  - inversion Hall as [|? ? Hr Hrest]; subst.
    rewrite (createArrayBuffer_loop_ok_row r rest view console _ Hr).
    destruct (setInt_row view r Hr) as (view1 & -> & Hlen1 & Hlook1).
    destruct (IH view1) as (view' & Hloop & Hlen & Hlook).
    { by rewrite Hlen1. }
    exists view'. split_and!; [done | congruence |].
    intros j. rewrite Hlook, Hlook1. unfold writer. rewrite filter_cons.
    destruct (covers r (Z.of_nat j)) eqn:Hc.
    + rewrite decide_True by done. rewrite last_cons.
      by destruct (last _).
    + rewrite decide_False by congruence. done.
Qed.

Lemma forallb_Forall {A} (f : A → bool) (l : list A) :
  forallb f l = true → Forall (λ x, f x = true) l.
Proof.
  induction l as [|x l IH]; simpl; [constructor|].
  intros [Hx Hl]%andb_true_iff. constructor; auto.
Qed.

Lemma disjoint_not_covered (r : row) (rest : list row) (i : Z) :
  forallb (disjoint r) rest = true → covers r i = true →
  filter (λ r', covers r' i = true) rest = [].
Proof.
  intros Hdisj Hc. induction rest as [|r' rest IH]; [done|].
  simpl in Hdisj. apply andb_true_iff in Hdisj as [Hd Hrest].
  rewrite filter_cons_False; [by apply IH|].
  intros Hc'. apply covers_spec in Hc, Hc'.
  unfold disjoint in Hd. apply orb_true_iff in Hd. rewrite !Z.leb_le in Hd. lia.
Qed.

(** In a list without overlap every byte has at most one row covering it. *)
Lemma no_overlap_unique (matrix : list row) (i : Z) :
  no_overlap matrix = true →
  (length (filter (λ r, covers r i = true) matrix) ≤ 1)%nat.
Proof.
  induction matrix as [|r rest IH]; intros Hno; simpl in *; [lia|].
  apply andb_true_iff in Hno as [Hdisj Hno].
  rewrite filter_cons. destruct (decide (covers r i = true)) as [Hc | Hc].
  - rewrite (disjoint_not_covered r rest i Hdisj Hc). simpl. lia.
  - by apply IH.
Qed.

Lemma writer_unique (matrix : list row) (j : nat) (r : row) :
  (length (filter (λ r, covers r (Z.of_nat j) = true) matrix) ≤ 1)%nat →
  r ∈ matrix → covers r (Z.of_nat j) = true →
  writer matrix j = Some r.
Proof.
  intros Hlen Hin Hc. unfold writer.
  assert (r ∈ filter (λ r, covers r (Z.of_nat j) = true) matrix) as Hf
    by (by apply list_elem_of_filter).
  destruct (filter _ matrix) as [|x [|y l]]; simpl in *.
  - by inversion Hf.
  - by apply list_elem_of_singleton in Hf as ->.
  - lia.
Qed.

Lemma writer_none (matrix : list row) (j : nat) :
  (∀ r, r ∈ matrix → covers r (Z.of_nat j) = false) →
  writer matrix j = None.
Proof.
  intros Hnone. unfold writer.
  destruct (filter _ matrix) as [|x l] eqn:Hf; [done|].
  assert (x ∈ filter (λ r, covers r (Z.of_nat j) = true) matrix) as Hx
    by (rewrite Hf; left).
  apply list_elem_of_filter in Hx as [Hc Hin].
  rewrite (Hnone x Hin) in Hc. discriminate.
Qed.

Lemma writer_Permutation (matrix matrix' : list row) (j : nat) :
  matrix ≡ₚ matrix' →
  (length (filter (λ r, covers r (Z.of_nat j) = true) matrix) ≤ 1)%nat →
  writer matrix' j = writer matrix j.
Proof.
  intros Hperm Hlen. unfold writer.
  assert (filter (λ r, covers r (Z.of_nat j) = true) matrix
          ≡ₚ filter (λ r, covers r (Z.of_nat j) = true) matrix') as Hf
    by (by rewrite Hperm).
  destruct (filter _ matrix) as [|x [|y l]]; simpl in *.
  - apply Permutation_nil_l in Hf as <-. done.
  - apply Permutation_singleton_l in Hf as <-. done.
  - lia.
Qed.

(** For rows that are valid for the size, [createArrayBuffer] completes
    without printing, and each byte of the buffer is as its last writer
    left it, or zero. *)
Lemma createArrayBuffer_writer (bytes : Z) (matrix : list row) :
  0 ≤ bytes →
  Forall (λ r, row_ok bytes r = true) matrix →
  ∃ buffer,
    createArrayBuffer bytes matrix = ([], Normal buffer) ∧
    Z.of_nat (length buffer) = bytes ∧
    ∀ j : nat,
      buffer !! j =
        match writer matrix j with
        | Some r => Some (field_byte r (Z.of_nat j - byteOffset r))
        | None => replicate (Z.to_nat bytes) 0 !! j
        end.
Proof.
  intros Hbytes Hok. unfold createArrayBuffer.
  replace (bytes <? 0) with false by (symmetry; apply Z.ltb_ge; lia).
  assert (Z.of_nat (length (replicate (Z.to_nat bytes) 0)) = bytes) as Hview
    by (rewrite length_replicate; lia).
  destruct (createArrayBuffer_loop_writer matrix (replicate (Z.to_nat bytes) 0) [])
    as (buffer & Hloop & Hlen & Hlook); [by rewrite Hview|].
  exists buffer. split_and!; [done | lia | done].
Qed.

(** Without overlap the last writer of a byte is the one row covering it. *)
Lemma lookup_field (bytes : Z) (matrix : list row) (buffer : list Z) :
  Forall (λ r, row_ok bytes r = true) matrix →
  no_overlap matrix = true →
  (∀ j : nat,
     buffer !! j =
       match writer matrix j with
       | Some r => Some (field_byte r (Z.of_nat j - byteOffset r))
       | None => replicate (Z.to_nat bytes) 0 !! j
       end) →
  ∀ r k, r ∈ matrix → 0 ≤ k < bits r / 8 →
    buffer !! Z.to_nat (byteOffset r + k) = Some (field_byte r k).
Proof.
  intros Hok Hno Hlook r k Hin Hk. rewrite Hlook.
  pose proof (proj1 (Forall_forall _ _) Hok r Hin) as Hr.
  apply row_ok_inv in Hr as (n & _ & _ & Hdiv & Hoff & _).
  rewrite (writer_unique matrix _ r).
  - do 2 f_equal. lia.
  - apply no_overlap_unique, Hno.
  - done.
  - apply covers_spec. lia.
Qed.

(** C4: for a valid field-spec list [createArrayBuffer] returns a buffer
    of the requested size that holds every value at its offset, most
    significant byte first, and zero in every byte no field covers; the
    order of the rows does not matter. *)
Theorem createArrayBuffer_spec (bytes : Z) (matrix : list row) :
  0 ≤ bytes →
  valid_matrix bytes matrix = true →
  ∃ buffer,
    createArrayBuffer bytes matrix = ([], Normal buffer) ∧
    Z.of_nat (length buffer) = bytes ∧
    (∀ r k, r ∈ matrix → 0 ≤ k < bits r / 8 →
       buffer !! Z.to_nat (byteOffset r + k) = Some (field_byte r k)) ∧
    (∀ i, 0 ≤ i < bytes → (∀ r, r ∈ matrix → covers r i = false) →
       buffer !! Z.to_nat i = Some 0) ∧
    (∀ matrix', matrix ≡ₚ matrix' →
       createArrayBuffer bytes matrix' = ([], Normal buffer)).
Proof.
  intros Hbytes [Hok Hno]%andb_true_iff. apply forallb_Forall in Hok.
  destruct (createArrayBuffer_writer bytes matrix Hbytes Hok)
    as (buffer & Hcreate & Hlen & Hlook).
  exists buffer. split_and!.
  - done.
  - done.
  - by apply (lookup_field bytes).
  - intros i Hi Hnone. rewrite Hlook, writer_none.
    + apply lookup_replicate_2. lia.
    + intros r Hin. rewrite Z2Nat.id by lia. by apply Hnone.
  - intros matrix' Hperm.
    assert (Forall (λ r, row_ok bytes r = true) matrix') as Hok'
      by (by rewrite <- Hperm).
    destruct (createArrayBuffer_writer bytes matrix' Hbytes Hok')
      as (buffer' & Hcreate' & Hlen' & Hlook').
    rewrite Hcreate'. do 2 f_equal. apply list_eq. intros j.
    rewrite Hlook, Hlook'.
    rewrite (writer_Permutation matrix matrix' j Hperm); [done|].
    apply no_overlap_unique, Hno.
Qed.

Lemma createArrayBuffer_spec_witness :
  ∃ buffer,
    createArrayBuffer 8
      [{| bits := 16; byteOffset := 2; value := 5351 |};
       {| bits := 8; byteOffset := 0; value := 2 |};
       {| bits := 32; byteOffset := 4; value := 7200 |}] = ([], Normal buffer) ∧
    buffer = [2; 0; 20; 231; 0; 0; 28; 32].
Proof.
  destruct (createArrayBuffer_spec 8
      [{| bits := 16; byteOffset := 2; value := 5351 |};
       {| bits := 8; byteOffset := 0; value := 2 |};
       {| bits := 32; byteOffset := 4; value := 7200 |}])
    as (buffer & Heq & _); [lia | reflexivity |].
  exists buffer. split; [exact Heq|].
  vm_compute in Heq. congruence.
Defined.

Lemma createArrayBuffer_loop_app (pre post : list row) (view : list Z)
    (console : list string) :
  createArrayBuffer_loop (pre ++ post) view console =
    match createArrayBuffer_loop pre view console with
    | (c, Normal v) => createArrayBuffer_loop post v c
    | (c, Throw e) => (c, Throw e)
    end.
Proof.
  revert view console. induction pre as [|r pre IH]; intros view console; [done|].
  cbn [app createArrayBuffer_loop].
  repeat match goal with
         | |- context [if ?b then _ else _] => destruct b
         | |- context [match setInt ?w ?v ?o ?x with _ => _ end] =>
             destruct (setInt w v o x)
         end; auto.
Qed.

(** The console only grows. *)
Lemma createArrayBuffer_loop_console (matrix : list row) (view : list Z)
    (console : list string) :
  console `prefix_of` (createArrayBuffer_loop matrix view console).1.
Proof.
  revert view console. induction matrix as [|r rest IH]; intros view console.
  - done.
  - cbn [createArrayBuffer_loop].
    repeat match goal with
           | |- context [if ?b then _ else _] => destruct b
           | |- context [match setInt ?w ?v ?o ?x with _ => _ end] =>
               destruct (setInt w v o x)
           end; auto.
    etrans; [|apply IH]. by apply prefix_app_r.
Qed.

(** C5: a row whose width is not 8, 16 or 32 takes the error branch.
    Wherever the loop stands, it prints the message for that row and goes
    on with the view as it was; so in a call whose earlier rows were
    written, the message is on the console and the row has written
    nothing. *)
Theorem createArrayBuffer_invalid_width (r : row) :
  bits r ≠ 8 → bits r ≠ 16 → bits r ≠ 32 →
  (∀ rest view console,
     createArrayBuffer_loop (r :: rest) view console =
       createArrayBuffer_loop rest view (console ++ [invalid_message])) ∧
  (∀ bytes pre post console view,
     createArrayBuffer bytes pre = (console, Normal view) →
     createArrayBuffer bytes (pre ++ r :: post) =
       createArrayBuffer_loop post view (console ++ [invalid_message]) ∧
     console ++ [invalid_message]
       `prefix_of` (createArrayBuffer bytes (pre ++ r :: post)).1).
Proof.
  intros H8 H16 H32.
  assert (∀ rest view console,
     createArrayBuffer_loop (r :: rest) view console =
       createArrayBuffer_loop rest view (console ++ [invalid_message])) as Hstep.
  { intros rest view console. cbn [createArrayBuffer_loop].
    by rewrite (proj2 (Z.eqb_neq _ _) H8), (proj2 (Z.eqb_neq _ _) H16),
         (proj2 (Z.eqb_neq _ _) H32). }
  split; [exact Hstep|].
  intros bytes pre post console view. unfold createArrayBuffer.
  destruct (bytes <? 0); [discriminate|]. intros Hpre.
  rewrite createArrayBuffer_loop_app, Hpre, Hstep.
  split; [done | apply createArrayBuffer_loop_console].
Qed.

Lemma createArrayBuffer_invalid_width_witness :
  createArrayBuffer 4
    ([{| bits := 16; byteOffset := 0; value := 258 |}]
     ++ {| bits := 24; byteOffset := 1; value := 7 |}
     :: [{| bits := 8; byteOffset := 3; value := 9 |}])
  = ([invalid_message], Normal [1; 2; 0; 9]).
Proof.
  pose proof (createArrayBuffer_invalid_width
                {| bits := 24; byteOffset := 1; value := 7 |}
                ltac:(discriminate) ltac:(discriminate) ltac:(discriminate))
    as [_ Hcall].
  destruct (Hcall 4 [{| bits := 16; byteOffset := 0; value := 258 |}]
              [{| bits := 8; byteOffset := 3; value := 9 |}]
              [] [1; 2; 0; 0] eq_refl) as [-> _].
  reflexivity.
Defined.

(** ** Reading back what [createArrayBuffer] wrote *)

Lemma take_drop_lookup (l : list Z) (o n : nat) (f : nat → Z) :
  (∀ k, (k < n)%nat → l !! (o + k)%nat = Some (f k)) →
  take n (drop o l) = f <$> seq 0 n.
Proof.
  intros Hl. apply list_eq. intros k.
  destruct (decide (k < n)%nat) as [Hk | Hk].
  - rewrite lookup_take_lt, lookup_drop, Hl by done.
    rewrite list_lookup_fmap, lookup_seq_lt by done. done.
  - rewrite lookup_take_ge by lia.
    rewrite list_lookup_fmap, lookup_seq_ge by lia. done.
Qed.

(** The unsigned read of a field whose bytes are those of a row's value
    gives the value modulo [2 ^ bits]. *)
Lemma getUint_row (buffer : list Z) (r : row) :
  row_ok (Z.of_nat (length buffer)) r = true →
  (∀ k, 0 ≤ k < bits r / 8 →
     buffer !! Z.to_nat (byteOffset r + k) = Some (field_byte r k)) →
  getUint (bits r) buffer (byteOffset r) = Normal (value r mod 2 ^ bits r).
Proof.
  intros (n & Hn & Hbits & Hdiv & Hoff & Hend)%row_ok_inv Hbytes.
  unfold getUint. rewrite Hdiv in *.
  replace ((byteOffset r <? 0) || (Z.of_nat (length buffer) <? byteOffset r + n))
    with false
    by (symmetry; apply orb_false_iff; split; apply Z.ltb_ge; lia).
  f_equal.
  rewrite (take_drop_lookup buffer _ _ (λ k, field_byte r (Z.of_nat k))).
  2:{ intros k Hk. rewrite <- Hbytes by lia. f_equal. lia. }
  unfold field_byte. rewrite Hdiv, Hbits.
  destruct Hn as [-> | [-> | ->]];
    [change (Z.to_nat 1) with 1%nat | change (Z.to_nat 2) with 2%nat
    | change (Z.to_nat 4) with 4%nat];
    unfold fromBytes; cbn [seq fmap list_fmap fold_left]; eval_pows;
    Z.div_mod_to_equations; lia.
Qed.

Lemma ToInt_mod (bits v : Z) : ToInt bits (v mod 2 ^ bits) = ToInt bits v.
Proof. unfold ToInt. by rewrite Zmod_mod. Qed.

Lemma ToInt_fits (r : row) (size : Z) :
  row_ok size r = true → fits_signed r = true →
  ToInt (bits r) (value r) = value r.
Proof.
  intros (n & Hn & Hbits & _)%row_ok_inv.
  unfold fits_signed, ToInt. rewrite Hbits.
  intros [Hlo Hhi]%andb_true_iff. apply Z.leb_le in Hlo. apply Z.ltb_lt in Hhi.
  destruct Hn as [-> | [-> | ->]];
    [change (8 * 1 - 1) with 7 in * | change (8 * 2 - 1) with 15 in *
    | change (8 * 4 - 1) with 31 in *];
    eval_pows; change (2 ^ 7) with 128 in *; change (2 ^ 15) with 32768 in *;
    change (2 ^ 31) with 2147483648 in *;
    match goal with |- context [if ?b then _ else _] => destruct b eqn:E end;
    first [apply Z.ltb_lt in E | apply Z.ltb_ge in E];
    Z.div_mod_to_equations; lia.
Qed.

Lemma decode_loop_rows (buffer : list Z) (rows : list row)
    (values : list Z) (console : list string) :
  Forall (λ r, row_ok (Z.of_nat (length buffer)) r = true ∧
               ∀ k, 0 ≤ k < bits r / 8 →
                 buffer !! Z.to_nat (byteOffset r + k) = Some (field_byte r k))
    rows →
  decode_loop (layout rows) buffer values console =
    (console, Normal (values ++ ((λ r, ToInt (bits r) (value r)) <$> rows))) ∧
  decodeUnsigned_loop (layout rows) buffer values console =
    (console, Normal (values ++ ((λ r, value r mod 2 ^ bits r) <$> rows))).
Proof.
  intros Hall. revert values.
  induction Hall as [|r rows [Hr Hbytes] Hrest IH]; intros values.
  - simpl. by rewrite app_nil_r.
  - cbn [layout fmap list_fmap decode_loop decodeUnsigned_loop].
    assert ((bits r =? 8) || (bits r =? 16) || (bits r =? 32) = true) as ->.
    { unfold row_ok in Hr. by apply andb_true_iff in Hr as [[? _]%andb_true_iff _]. }
    unfold getInt. rewrite (getUint_row buffer r Hr Hbytes). cbn [bind].
    rewrite ToInt_mod.
    change ((λ r0 : row, (bits r0, byteOffset r0)) <$> rows) with (layout rows).
    destruct (IH (values ++ [ToInt (bits r) (value r)])) as [-> _].
    destruct (IH (values ++ [value r mod 2 ^ bits r])) as [_ ->].
    by rewrite <- !app_assoc.
Qed.

(** C3, as the code has it: decoding the buffer of a valid field-spec list
    at the same offsets and widths gives back each value reduced to its
    width, so it gives back the values themselves when they fit: as signed
    numbers for the signed read, as unsigned numbers for the unsigned
    read. *)
Theorem createArrayBuffer_decode_roundtrip (bytes : Z) (matrix : list row) :
  0 ≤ bytes →
  valid_matrix bytes matrix = true →
  ∃ buffer,
    createArrayBuffer bytes matrix = ([], Normal buffer) ∧
    decode buffer (layout matrix) =
      ([], Normal ((λ r, ToInt (bits r) (value r)) <$> matrix)) ∧
    decodeUnsigned buffer (layout matrix) =
      ([], Normal ((λ r, value r mod 2 ^ bits r) <$> matrix)) ∧
    (forallb fits_signed matrix = true →
     decode buffer (layout matrix) = ([], Normal (value <$> matrix))) ∧
    (forallb fits_unsigned matrix = true →
     decodeUnsigned buffer (layout matrix) = ([], Normal (value <$> matrix))).
Proof.
  intros Hbytes [Hok%forallb_Forall Hno]%andb_true_iff.
  destruct (createArrayBuffer_writer bytes matrix Hbytes Hok)
    as (buffer & Hcreate & Hlen & Hlook).
  pose proof (lookup_field bytes matrix buffer Hok Hno Hlook) as Hfields.
  assert (Forall (λ r, row_ok (Z.of_nat (length buffer)) r = true ∧
               ∀ k, 0 ≤ k < bits r / 8 →
                 buffer !! Z.to_nat (byteOffset r + k) = Some (field_byte r k))
            matrix) as Hall.
  { rewrite Hlen. apply Forall_forall. intros r Hin. split.
    - by apply (proj1 (Forall_forall _ _) Hok).
    - intros k Hk. by apply Hfields. }
  destruct (decode_loop_rows buffer matrix [] [] Hall) as [Hdec Hdecu].
  exists buffer. unfold decode, decodeUnsigned. rewrite Hdec, Hdecu.
  split_and!; [done | done | done | |].
  - intros Hfit%forallb_Forall. do 2 f_equal. apply list_fmap_ext.
    intros i r Hi. apply (ToInt_fits r bytes).
    + apply (proj1 (Forall_forall _ _) Hok). by eapply list_elem_of_lookup_2.
    + apply (proj1 (Forall_forall _ _) Hfit). by eapply list_elem_of_lookup_2.
  - intros Hfit%forallb_Forall. do 2 f_equal. apply list_fmap_ext.
    intros i r Hi. apply Z.mod_small.
    assert (fits_unsigned r = true) as [Hlo Hhi]%andb_true_iff
      by (apply (proj1 (Forall_forall _ _) Hfit); by eapply list_elem_of_lookup_2).
    apply Z.leb_le in Hlo. apply Z.ltb_lt in Hhi. lia.
Qed.

Lemma createArrayBuffer_decode_roundtrip_witness :
  ∃ buffer,
    createArrayBuffer 8
      [{| bits := 16; byteOffset := 2; value := -2 |};
       {| bits := 8; byteOffset := 0; value := 2 |};
       {| bits := 32; byteOffset := 4; value := 7200 |}] = ([], Normal buffer) ∧
    decode buffer [(16, 2); (8, 0); (32, 4)] = ([], Normal [-2; 2; 7200]).
Proof.
  destruct (createArrayBuffer_decode_roundtrip 8
      [{| bits := 16; byteOffset := 2; value := -2 |};
       {| bits := 8; byteOffset := 0; value := 2 |};
       {| bits := 32; byteOffset := 4; value := 7200 |}]
      ltac:(lia) eq_refl) as (buffer & Hcreate & _ & _ & Hsigned & _).
  exists buffer. split; [exact Hcreate | exact (Hsigned eq_refl)].
Defined.

(** C3 as stated does not hold: a value that does not fit its width is
    not read back.  The 8-bit field holding 256 is written as the byte 0,
    and both the signed and the unsigned read give 0. *)
Lemma createArrayBuffer_decode_wraps :
  let matrix := [{| bits := 8; byteOffset := 0; value := 256 |}] in
  valid_matrix 1 matrix = true ∧
  createArrayBuffer 1 matrix = ([], Normal [0]) ∧
  decode [0] (layout matrix) = ([], Normal [0]) ∧
  decodeUnsigned [0] (layout matrix) = ([], Normal [0]) ∧
  decode [0] (layout matrix) ≠ ([], Normal (value <$> matrix)) ∧
  decodeUnsigned [0] (layout matrix) ≠ ([], Normal (value <$> matrix)).
Proof. split_and!; try reflexivity; discriminate. Qed.

(** ** [countdownReject] *)

Section CountdownFacts.

Variable World : Type.

(** C6, as the code has it: the promise of [countdownReject] starts
    pending with one timer of the given delay; when the timer fires on a
    pending promise and the callback, if there is one, returns, the
    callback has run once, then the promise has been rejected with an
    [Error] carrying the message.  Without a callback the promise is
    rejected all the same. *)
Theorem countdownReject_rejects (time : Z) (msg : string)
    (callback : option (callback_fn World)) (st : state World) :
  promise World st = Pending →
  (∀ f, callback = Some f → (f (world World st)).2 = None) →
  ∃ tm,
    countdownReject World time msg callback = (Pending, [tm]) ∧
    delay World tm = time ∧
    ∃ st',
      body World tm st = (st', Normal ()) ∧
      promise World st' = Rejected (Error msg) ∧
      world World st' =
        match callback with
        | Some f => (f (world World st)).1
        | None => world World st
        end ∧
      trace World st' =
        trace World st
        ++ match callback with
           | Some _ => [CallbackCalled]
           | None => []
           end
        ++ [PromiseRejected (Error msg)].
Proof.
  intros Hpending Hreturns. eexists. split_and!; [reflexivity | reflexivity |].
  cbn [body]. unfold countdown_body.
  destruct callback as [f|].
  - specialize (Hreturns f eq_refl).
    destruct (f (world World st)) as [w thrown]. simpl in Hreturns. subst thrown.
    eexists. split; [reflexivity|].
    unfold R. cbn [promise]. rewrite Hpending. cbn.
    split_and!; [done | done |]. by rewrite <- app_assoc.
  - eexists. split; [reflexivity|].
    unfold R. rewrite Hpending. cbn. by split_and!.
Qed.

(** When the callback throws, the promise is left pending. *)
Lemma countdown_body_throws (msg : string) (f : callback_fn World)
    (st : state World) (e : exn) :
  (f (world World st)).2 = Some e →
  ∃ st', countdown_body World msg (Some f) st = (st', Throw e) ∧
         promise World st' = promise World st ∧
         trace World st' = trace World st ++ [CallbackCalled].
Proof.
  intros Hthrows. unfold countdown_body.
  destruct (f (world World st)) as [w thrown]. simpl in Hthrows. subst thrown.
  eexists. by split_and!.
Qed.

End CountdownFacts.

Lemma countdownReject_rejects_witness :
  ∃ tm st',
    countdownReject nat 2000 "No NAT-PMP response" (Some (λ sockets, (pred sockets, None)))
      = (Pending, [tm]) ∧
    body nat tm {| world := 1%nat; promise := Pending; trace := [] |}
      = (st', Normal ()) ∧
    st' = {| world := 0%nat;
             promise := Rejected (Error "No NAT-PMP response");
             trace := [CallbackCalled;
                       PromiseRejected (Error "No NAT-PMP response")] |}.
Proof.
  destruct (countdownReject_rejects nat 2000 "No NAT-PMP response"
              (Some (λ sockets, (pred sockets, None)))
              {| world := 1%nat; promise := Pending; trace := [] |}
              eq_refl)
    as (tm & Hcall & _ & st' & Hbody & _).
  { intros f [= <-]. reflexivity. }
  exists tm, st'. split_and!; [exact Hcall | exact Hbody |].
  injection Hcall as <-. cbn in Hbody. by injection Hbody as <-.
Defined.

(** C6 as stated does not hold for every callback: when the callback
    throws, the timer function ends there and the promise is never
    rejected. *)
Lemma countdownReject_callback_throws :
  let callback : callback_fn nat :=
    λ sockets, (sockets, Some (Error "Not running")) in
  let st := {| world := 0%nat; promise := Pending; trace := [] |} in
  ∃ tm,
    countdownReject nat 2000 "No NAT-PMP response" (Some callback)
      = (Pending, [tm]) ∧
    body nat tm st
      = ({| world := 0%nat; promise := Pending; trace := [CallbackCalled] |},
         Throw (Error "Not running")) ∧
    promise nat (body nat tm st).1 ≠ Rejected (Error "No NAT-PMP response").
Proof.
  eexists. split_and!; [reflexivity | reflexivity | discriminate].
Qed.

(** * Further properties of the module *)

(** ** [longestPrefixMatch]: when it returns, what, and when it throws *)

Lemma parse_cases (s : string) :
  (∃ ip, parse s = Normal ip) ∨ (∃ e, parse s = Throw e).
Proof. destruct (parse s); eauto. Qed.

Lemma shared_prefix_ge_31 (s matchIp : string) (ip m : IPv4) :
  parse s = Normal ip → parse matchIp = Normal m →
  pushed_for m s = None ↔ 31 ≤ shared_prefix s matchIp.
Proof.
  intros Hs Hm. unfold pushed_for. rewrite Hs.
  rewrite (shared_prefix_parsed s matchIp ip m Hs Hm).
  destruct (Z.ltb_spec (shared_bits ip m) 31); split; (done || lia).
Qed.

Lemma omap_nil_iff {A B} (f : A → option B) (l : list A) :
  omap f l = [] ↔ Forall (λ x, f x = None) l.
Proof.
  induction l as [|x l IH]; csimpl; [by split; [constructor|]|].
  destruct (f x) eqn:Hx; split.
  - discriminate.
  - intros Hall. inversion Hall; subst. congruence.
  - intros Hl. constructor; [done | by apply IH].
  - intros Hall. inversion Hall; subst. by apply IH.
Qed.

Lemma length_omap_le {A B} (f : A → option B) (l : list A) :
  (length (omap f l) ≤ length l)%nat.
Proof.
  induction l as [|x l IH]; csimpl; [lia|]. destruct (f x); simpl; lia.
Qed.

(** For well-formed addresses [longestPrefixMatch] returns; what it
    returns is an entry of the list, or [undefined], and it is [undefined]
    exactly when every entry of the list shares 31 or 32 leading bits with
    the address (in particular for the empty list). *)
Theorem longestPrefixMatch_result (ipList : list string) (matchIp : string) :
  (∃ m, parse matchIp = Normal m) →
  Forall (λ s, ∃ ip, parse s = Normal ip) ipList →
  ∃ r,
    longestPrefixMatch ipList matchIp = Normal r ∧
    (r = None ↔ Forall (λ s, 31 ≤ shared_prefix s matchIp) ipList) ∧
    (∀ g, r = Some g → g ∈ ipList).
Proof.
  intros [m Hm] Hparse. unfold longestPrefixMatch. rewrite Hm. cbn [bind].
  rewrite prefixLoop_pushed by eauto using parse_octets_ok. cbn [bind app].
  eexists. split; [done|].
  assert (omap (pushed_for m) ipList = []
          ↔ Forall (λ s, 31 ≤ shared_prefix s matchIp) ipList) as Hnil.
  { rewrite omap_nil_iff. rewrite !Forall_forall. split; intros Hall s Hin.
    - destruct (proj1 (Forall_forall _ _) Hparse s Hin) as [ip Hip].
      apply (shared_prefix_ge_31 s matchIp ip m Hip Hm). by apply Hall.
    - destruct (proj1 (Forall_forall _ _) Hparse s Hin) as [ip Hip].
      apply (shared_prefix_ge_31 s matchIp ip m Hip Hm). by apply Hall. }
  destruct (omap (pushed_for m) ipList) as [|x pm] eqn:Hpm.
  - split; [|discriminate]. split; [intros _; by apply Hnil | done].
  - rewrite <- Hpm in *.
    assert (omap (pushed_for m) ipList ≠ []) as Hne by (rewrite Hpm; done).
    destruct (indexOf_from_elem _ _ 0 (Math_max_elem _ Hne)) as (k & Hk & Hlook & _).
    unfold indexOf. rewrite Hk. unfold index.
    replace (0 + Z.of_nat k <? 0) with false by (symmetry; apply Z.ltb_ge; lia).
    replace (Z.to_nat (0 + Z.of_nat k)) with k by lia.
    apply lookup_lt_Some in Hlook.
    pose proof (length_omap_le (pushed_for m) ipList) as Hlen.
    destruct (lookup_lt_is_Some_2 ipList k) as [g Hg]; [lia|].
    rewrite Hg. split.
    + split; [discriminate|]. intros Hall. exfalso. by apply Hne, Hnil.
    + intros g' [= <-]. by eapply list_elem_of_lookup_2.
Qed.

Lemma longestPrefixMatch_result_witness :
  ∃ r,
    longestPrefixMatch ["10.0.0.2"; "10.0.0.3"] "10.0.0.3" = Normal r ∧
    (r = None ↔ Forall (λ s, 31 ≤ shared_prefix s "10.0.0.3")
                  ["10.0.0.2"; "10.0.0.3"]) ∧
    (∀ g, r = Some g → g ∈ ["10.0.0.2"; "10.0.0.3"]).
Proof.
  apply (longestPrefixMatch_result ["10.0.0.2"; "10.0.0.3"] "10.0.0.3").
  - eexists. vm_compute. reflexivity.
  - repeat constructor; eexists; vm_compute; reflexivity.
Defined.

Lemma longestPrefixMatch_longest_witness :
  ∃ (i : nat) (g : string),
    longestPrefixMatch ["192.168.1.1"; "192.168.0.1"; "192.168.1.254"]
      "192.168.1.37" = Normal (Some g) ∧
    ["192.168.1.1"; "192.168.0.1"; "192.168.1.254"] !! i = Some g ∧
    (∀ j s, ["192.168.1.1"; "192.168.0.1"; "192.168.1.254"] !! j = Some s →
            shared_prefix s "192.168.1.37" ≤ shared_prefix g "192.168.1.37") ∧
    (∀ j s, (j < i)%nat →
            ["192.168.1.1"; "192.168.0.1"; "192.168.1.254"] !! j = Some s →
            shared_prefix s "192.168.1.37" < shared_prefix g "192.168.1.37").
Proof.
  apply (longestPrefixMatch_longest
           ["192.168.1.1"; "192.168.0.1"; "192.168.1.254"] "192.168.1.37").
  - discriminate.
  - eexists. vm_compute. reflexivity.
  - repeat constructor; try (eexists; vm_compute; reflexivity);
      vm_compute; reflexivity.
Defined.






(** ** [getPrivateIps] *)

Lemma fold_left_concat {A} (ls : list (list A)) (acc : list A) :
  fold_left (λ a b, a ++ b) ls acc = acc ++ concat ls.
Proof.
  revert acc. induction ls as [|l ls IH]; intros acc; simpl.
  - by rewrite app_nil_r.
  - by rewrite IH, app_assoc.
Qed.


Lemma getPrivateIps_valid (i : list (string * list NetworkInterfaceInfo)) :
  Forall (λ a, ∃ ip, parse a = Normal ip) (getPrivateIps i).
Proof.
  unfold getPrivateIps. apply Forall_forall.
  intros a [Hvalid _]%list_elem_of_filter.
  unfold isValid in Hvalid. destruct (parse a); [eauto | discriminate].
Qed.

(** Whatever the interfaces are, [filterRouterIps] accepts the result of
    [getPrivateIps]: it does not throw, and gives one entry of
    [ROUTER_IPS], never [undefined], for each address; without an
    interface that is not internal the list of gateways is empty. *)
Theorem filterRouterIps_getPrivateIps
    (i : list (string * list NetworkInterfaceInfo)) :
  (∃ routerIps,
     filterRouterIps (getPrivateIps i) = Normal (Some <$> routerIps) ∧
     Forall2 (λ p g, g ∈ ROUTER_IPS ∧
                     longestPrefixMatch ROUTER_IPS p = Normal (Some g))
       (getPrivateIps i) routerIps) ∧
  (Forall (λ entry, Forall (λ info, internal info = true) entry.2) i →
   filterRouterIps (getPrivateIps i) = Normal []).
Proof.
  split.
  - apply (filterRouterIps_loop_spec (getPrivateIps i) []), getPrivateIps_valid.
  - intros Hinternal.
    assert (getPrivateIps i = []) as ->; [|done].
    unfold getPrivateIps. rewrite fold_left_concat. cbn [app].
    assert (filter (λ info, negb (internal info) = true) (concat (map snd i)) = [])
      as ->; [|done].
    induction Hinternal as [|[name infos] rest Hinfos Hrest IH]; [done|].
    cbn [map concat snd]. rewrite filter_app, IH, app_nil_r.
    clear IH Hrest. simpl in Hinfos.
    induction Hinfos as [|info infos Hinfo Hinfos IH]; [done|].
    rewrite filter_cons_False; [done|]. rewrite Hinfo. discriminate.
Qed.

Lemma filterRouterIps_getPrivateIps_witness :
  filterRouterIps
    (getPrivateIps
       [("lo", [{| address := "127.0.0.1"; internal := true |};
                {| address := "::1"; internal := true |}])])
  = Normal [].
Proof.
  destruct (filterRouterIps_getPrivateIps
       [("lo", [{| address := "127.0.0.1"; internal := true |};
                {| address := "::1"; internal := true |}])]) as [_ Hempty].
  apply Hempty. repeat constructor.
Defined.

(** ** [createArrayBuffer]: bounds, overlap, rows it cannot write *)

Lemma setInt_in_bounds (bits : Z) (view : list Z) (byteOffset value : Z) :
  0 ≤ byteOffset → byteOffset + bits / 8 ≤ Z.of_nat (length view) →
  ∃ view', setInt bits view byteOffset value = Normal view' ∧
           length view' = length view ∧
           (Forall is_byte view → Forall is_byte view').
Proof.
  intros Hlo Hhi. unfold setInt.
  replace ((byteOffset <? 0) || (Z.of_nat (length view) <? byteOffset + bits / 8))
    with false
    by (symmetry; apply orb_false_iff; split; apply Z.ltb_ge; lia).
  eexists. split_and!; [done | apply length_store |].
  clear Hlo Hhi.
  generalize (Z.to_nat byteOffset) as i.
  generalize (ToInt bits value) as x.
  generalize (Z.to_nat (bits / 8)) as n.
  intros n x. revert view. induction n as [|n IH]; intros view i Hview; [done|].
  cbn [rawBytes store]. apply IH. apply Forall_insert; [done|].
  unfold is_byte. change 255 with (Z.ones 8). rewrite Z.land_ones by lia.
  apply Z.mod_pos_bound. lia.
Qed.

Lemma setInt_out_of_bounds (bits : Z) (view : list Z) (byteOffset value : Z) :
  ¬ (0 ≤ byteOffset ∧ byteOffset + bits / 8 ≤ Z.of_nat (length view)) →
  setInt bits view byteOffset value = Throw out_of_bounds.
Proof.
  intros Hout. unfold setInt.
  replace ((byteOffset <? 0) || (Z.of_nat (length view) <? byteOffset + bits / 8))
    with true; [done|].
  symmetry. apply orb_true_iff. rewrite !Z.ltb_lt. lia.
Qed.

Lemma in_bounds_spec (size : Z) (r : row) :
  in_bounds size r = true ↔ 0 ≤ byteOffset r ∧ byteOffset r + bits r / 8 ≤ size.
Proof. unfold in_bounds. by rewrite andb_true_iff, !Z.leb_le. Qed.

Lemma createArrayBuffer_loop_width_ok (r : row) (rest : list row)
    (view : list Z) (console : list string) :
  width_ok r = true →
  createArrayBuffer_loop (r :: rest) view console =
    match setInt (bits r) view (byteOffset r) (value r) with
    | Normal view' => createArrayBuffer_loop rest view' console
    | Throw e => (console, Throw e)
    end.
Proof.
  unfold width_ok. rewrite !orb_true_iff, !Z.eqb_eq.
  cbn [createArrayBuffer_loop].
  intros [[H | H] | H]; rewrite H; reflexivity.
Qed.

Lemma createArrayBuffer_loop_width_bad (r : row) (rest : list row)
    (view : list Z) (console : list string) :
  width_ok r = false →
  createArrayBuffer_loop (r :: rest) view console =
    createArrayBuffer_loop rest view (console ++ [invalid_message]).
Proof.
  unfold width_ok. rewrite !orb_false_iff.
  cbn [createArrayBuffer_loop]. by intros [[-> ->] ->].
Qed.

(** The loop keeps the length of the view, and bytes stay bytes. *)
Lemma createArrayBuffer_loop_invariant (matrix : list row) (view : list Z)
    (console console' : list string) (view' : list Z) :
  createArrayBuffer_loop matrix view console = (console', Normal view') →
  length view' = length view ∧ (Forall is_byte view → Forall is_byte view').
Proof.
  revert view console. induction matrix as [|r rest IH]; intros view console.
  - cbn [createArrayBuffer_loop]. by intros [= _ ->].
  - destruct (width_ok r) eqn:Hw.
    + rewrite createArrayBuffer_loop_width_ok by done.
      destruct (decide (0 ≤ byteOffset r ∧
                        byteOffset r + bits r / 8 ≤ Z.of_nat (length view)))
        as [[Hlo Hhi] | Hout].
      * destruct (setInt_in_bounds (bits r) view (byteOffset r) (value r) Hlo Hhi)
          as (view1 & -> & Hlen1 & Hbytes1).
        intros Hloop. destruct (IH _ _ Hloop) as [Hlen Hbytes].
        split; [congruence | auto].
      * rewrite setInt_out_of_bounds by done. discriminate.
    + rewrite createArrayBuffer_loop_width_bad by done. apply IH.
Qed.

(** Whenever [createArrayBuffer] returns, the buffer has the requested
    size and every element of it is a byte, whatever the rows and values
    were. *)
Theorem createArrayBuffer_bytes (bytes : Z) (matrix : list row)
    (console : list string) (buffer : list Z) :
  createArrayBuffer bytes matrix = (console, Normal buffer) →
  Z.of_nat (length buffer) = bytes ∧ Forall is_byte buffer.
Proof.
  unfold createArrayBuffer. destruct (Z.ltb_spec bytes 0); [discriminate|].
  intros [Hlen Hbytes]%createArrayBuffer_loop_invariant.
  rewrite length_replicate in Hlen. split; [lia|].
  apply Hbytes, Forall_replicate. unfold is_byte. lia.
Qed.

Lemma createArrayBuffer_bytes_witness :
  Z.of_nat (length [0; 255; 254; 0]) = 4 ∧ Forall is_byte [0; 255; 254; 0].
Proof.
  apply (createArrayBuffer_bytes 4
           [{| bits := 16; byteOffset := 1; value := -2 |};
            {| bits := 12; byteOffset := 0; value := 1 |}]
           [invalid_message]).
  reflexivity.
Defined.

Lemma createArrayBuffer_loop_returns (matrix : list row) (view : list Z)
    (console : list string) :
  ((∃ view', (createArrayBuffer_loop matrix view console).2 = Normal view') ↔
   Forall (λ r, width_ok r = true →
                in_bounds (Z.of_nat (length view)) r = true) matrix) ∧
  (∀ e, (createArrayBuffer_loop matrix view console).2 = Throw e →
        e = out_of_bounds).
Proof.
  revert view console. induction matrix as [|r rest IH]; intros view console.
  - cbn [createArrayBuffer_loop snd]. split; [|discriminate].
    split; [constructor | eauto].
  - destruct (width_ok r) eqn:Hw.
    + rewrite createArrayBuffer_loop_width_ok by done.
      destruct (in_bounds (Z.of_nat (length view)) r) eqn:Hb.
      * apply in_bounds_spec in Hb as [Hlo Hhi].
        destruct (setInt_in_bounds (bits r) view (byteOffset r) (value r) Hlo Hhi)
          as (view1 & -> & Hlen1 & _).
        destruct (IH view1 console) as [Hiff Herr]. rewrite Hlen1 in Hiff.
        split; [|done]. rewrite Hiff. split.
        -- intros Hrest. constructor; [|done]. intros _.
           by apply in_bounds_spec.
        -- intros Hall. by inversion Hall.
      * rewrite setInt_out_of_bounds
          by (rewrite <- in_bounds_spec; congruence).
        cbn [snd]. split; [|by intros e [= <-]]. split.
        -- intros [view' Hv]. discriminate.
        -- intros Hall. inversion Hall as [|? ? Hr _]; subst.
           rewrite Hr in Hb by done. discriminate.
    + rewrite createArrayBuffer_loop_width_bad by done.
      destruct (IH view (console ++ [invalid_message])) as [Hiff Herr].
      split; [|done]. rewrite Hiff. split.
      * intros Hrest. constructor; [|done]. intros Hw'. congruence.
      * intros Hall. by inversion Hall.
Qed.

(** [createArrayBuffer] returns a buffer exactly when the size is not
    negative and every row of width 8, 16 or 32 has its field inside the
    buffer; otherwise it throws a [RangeError] and returns nothing.  Rows
    of another width never make it throw, wherever their offset is. *)
Theorem createArrayBuffer_returns_iff (bytes : Z) (matrix : list row) :
  ((∃ buffer, (createArrayBuffer bytes matrix).2 = Normal buffer) ↔
   0 ≤ bytes ∧
   Forall (λ r, width_ok r = true → in_bounds bytes r = true) matrix) ∧
  (∀ e, (createArrayBuffer bytes matrix).2 = Throw e →
        ∃ msg, e = RangeError msg).
Proof.
  unfold createArrayBuffer. destruct (Z.ltb_spec bytes 0) as [Hneg | Hpos].
  - cbn [snd]. split.
    + split; [intros [b Hb]; discriminate | lia].
    + intros e [= <-]. eauto.
  - destruct (createArrayBuffer_loop_returns matrix
                (replicate (Z.to_nat bytes) 0) []) as [Hiff Herr].
    rewrite length_replicate, Z2Nat.id in Hiff by lia.
    split.
    + rewrite Hiff. split; [by split | by intros [_ ?]].
    + intros e He. apply Herr in He as ->. unfold out_of_bounds. eauto.
Qed.

(** A row of width 8, 16 or 32 whose field is not inside the buffer ends
    the call: the [RangeError] is thrown, the rows after it are not looked
    at, and no buffer is returned. *)
Theorem createArrayBuffer_out_of_bounds (bytes : Z) (pre post : list row)
    (r : row) (console : list string) (view : list Z) :
  createArrayBuffer bytes pre = (console, Normal view) →
  width_ok r = true → in_bounds bytes r = false →
  createArrayBuffer bytes (pre ++ r :: post) = (console, Throw out_of_bounds).
Proof.
  unfold createArrayBuffer. destruct (Z.ltb_spec bytes 0); [discriminate|].
  intros Hpre Hw Hb. rewrite createArrayBuffer_loop_app, Hpre.
  apply createArrayBuffer_loop_invariant in Hpre as [Hlen _].
  rewrite length_replicate in Hlen.
  rewrite createArrayBuffer_loop_width_ok by done.
  rewrite setInt_out_of_bounds; [done|].
  rewrite Hlen, Z2Nat.id by lia. rewrite <- in_bounds_spec. congruence.
Qed.

Lemma createArrayBuffer_out_of_bounds_witness :
  createArrayBuffer 4
    ([{| bits := 8; byteOffset := 0; value := 1 |}]
     ++ {| bits := 32; byteOffset := 1; value := 7 |}
     :: [{| bits := 8; byteOffset := 3; value := 9 |}])
  = ([], Throw out_of_bounds).
Proof.
  apply (createArrayBuffer_out_of_bounds 4
           [{| bits := 8; byteOffset := 0; value := 1 |}]
           [{| bits := 8; byteOffset := 3; value := 9 |}]
           {| bits := 32; byteOffset := 1; value := 7 |} [] [1; 0; 0; 0]);
    reflexivity.
Defined.

Lemma createArrayBuffer_loop_skip (matrix : list row) (view : list Z)
    (console console' : list string) :
  (createArrayBuffer_loop (filter (λ r, width_ok r = true) matrix) view console').1
    = console' ∧
  (createArrayBuffer_loop matrix view console).2 =
    (createArrayBuffer_loop (filter (λ r, width_ok r = true) matrix)
       view console').2 ∧
  (∀ buffer,
     (createArrayBuffer_loop matrix view console).2 = Normal buffer →
     (createArrayBuffer_loop matrix view console).1 =
       console ++ replicate
                    (length (filter (λ r, width_ok r = false) matrix))
                    invalid_message).
Proof.
  revert view console console'.
  induction matrix as [|r rest IH]; intros view console console'.
  - cbn. split_and!; [done | done |]. intros _ _. by rewrite app_nil_r.
  - destruct (width_ok r) eqn:Hw.
    + rewrite filter_cons_True by done.
      rewrite (filter_cons_False (λ r, width_ok r = false)) by congruence.
      rewrite !createArrayBuffer_loop_width_ok by done.
      destruct (setInt (bits r) view (byteOffset r) (value r)) as [view1|e].
      * apply IH.
      * cbn. split_and!; [done | done | discriminate].
    + rewrite filter_cons_False by congruence.
      rewrite (filter_cons_True (λ r, width_ok r = false)) by done.
      rewrite createArrayBuffer_loop_width_bad by done.
      destruct (IH view (console ++ [invalid_message]) console')
        as (Hfst & Hsnd & Hcons).
      split_and!; [done | done |].
      intros buffer Hb. rewrite (Hcons buffer Hb).
      cbn [length replicate]. by rewrite <- app_assoc.
Qed.

(** Rows of a width other than 8, 16 or 32 change nothing but the
    console: the call completes as it does without them (same buffer, or
    same error), the call without them prints nothing, and when a buffer
    is returned the console holds the message once for each such row. *)
Theorem createArrayBuffer_skips_invalid (bytes : Z) (matrix : list row) :
  (createArrayBuffer bytes (filter (λ r, width_ok r = true) matrix)).1 = [] ∧
  (createArrayBuffer bytes matrix).2 =
    (createArrayBuffer bytes (filter (λ r, width_ok r = true) matrix)).2 ∧
  (∀ buffer,
     (createArrayBuffer bytes matrix).2 = Normal buffer →
     (createArrayBuffer bytes matrix).1 =
       replicate (length (filter (λ r, width_ok r = false) matrix))
         invalid_message).
Proof.
  unfold createArrayBuffer. destruct (bytes <? 0).
  - cbn. split_and!; [done | done | discriminate].
  - destruct (createArrayBuffer_loop_skip matrix
                (replicate (Z.to_nat bytes) 0) [] []) as (Hfst & Hsnd & Hcons).
    split_and!; [done | done |].
    intros buffer Hb. by rewrite (Hcons buffer Hb).
Qed.

(** When fields overlap, the later row wins: for rows of width 8, 16 or
    32 lying inside the buffer, each byte holds what the last row covering
    it wrote, and zero when no row covers it. *)
Theorem createArrayBuffer_last_writer (bytes : Z) (matrix : list row) :
  0 ≤ bytes →
  Forall (λ r, row_ok bytes r = true) matrix →
  ∃ buffer,
    createArrayBuffer bytes matrix = ([], Normal buffer) ∧
    ∀ j : nat, Z.of_nat j < bytes →
      buffer !! j =
        match last (filter (λ r, covers r (Z.of_nat j) = true) matrix) with
        | Some r => Some (field_byte r (Z.of_nat j - byteOffset r))
        | None => Some 0
        end.
Proof.
  intros Hbytes Hok.
  destruct (createArrayBuffer_writer bytes matrix Hbytes Hok)
    as (buffer & Hcreate & Hlen & Hlook).
  exists buffer. split; [done|]. intros j Hj. rewrite Hlook. unfold writer.
  destruct (last _); [done|]. apply lookup_replicate_2. lia.
Qed.

Lemma createArrayBuffer_last_writer_witness :
  ∃ buffer,
    createArrayBuffer 2
      [{| bits := 16; byteOffset := 0; value := 258 |};
       {| bits := 8; byteOffset := 1; value := 9 |}] = ([], Normal buffer) ∧
    buffer !! 1%nat = Some 9.
Proof.
  destruct (createArrayBuffer_last_writer 2
      [{| bits := 16; byteOffset := 0; value := 258 |};
       {| bits := 8; byteOffset := 1; value := 9 |}])
    as (buffer & Hcreate & Hlook); [lia | repeat constructor |].
  exists buffer. split; [exact Hcreate|].
  rewrite (Hlook 1%nat) by lia. reflexivity.
Defined.

(** ** [stringToArrayBuffer] and [arrayBufferToString] *)

Lemma arrayBufferToString_loop_concat (bytes : list Z) (a : list (list Z)) :
  concat (arrayBufferToString_loop bytes a) =
    concat a ++ ((λ b, b mod 65536) <$> bytes).
Proof.
  revert a. induction bytes as [|b bytes IH]; intros a; simpl.
  - by rewrite app_nil_r.
  - rewrite IH, concat_app. simpl. by rewrite <- app_assoc.
Qed.

Lemma stringToArrayBuffer_loop_spec (s : list Z) (i : nat) (bytes : list Z) :
  length bytes = (i + length s)%nat →
  stringToArrayBuffer_loop s i bytes = take i bytes ++ ((λ c, c mod 256) <$> s).
Proof.
  revert i bytes. induction s as [|c s IH]; intros i bytes Hlen; simpl in *.
  - rewrite app_nil_r, take_ge; [done | lia].
  - rewrite IH by (rewrite length_insert; lia).
    rewrite (take_S_r _ _ (c mod 256))
      by (apply list_lookup_insert_eq; lia).
    rewrite take_insert_ge by lia. by rewrite <- app_assoc.
Qed.

Lemma fmap_id_iff (f : Z → Z) (P : Z → Prop) (l : list Z) :
  (∀ x, f x = x ↔ P x) → f <$> l = l ↔ Forall P l.
Proof.
  intros Hf. induction l as [|x l IH]; [by split; [constructor|]|].
  csimpl. split.
  - intros [= Hx Hl]. constructor; [by apply Hf | by apply IH].
  - intros Hall. inversion Hall; subst. f_equal; [by apply Hf | by apply IH].
Qed.

Lemma mod_id_iff (x n : Z) : 0 < n → x mod n = x ↔ 0 ≤ x < n.
Proof.
  intros Hn. split.
  - intros <-. apply Z.mod_pos_bound. lia.
  - intros Hx. by apply Z.mod_small.
Qed.

(** Turning a string into a buffer keeps one byte per code unit, the low
    eight bits of it; turning the buffer back gives the string with every
    code unit reduced modulo 256, which is the string itself exactly when
    all its code units are below 256. *)
Theorem stringToArrayBuffer_arrayBufferToString (s : list Z) :
  length (stringToArrayBuffer s) = length s ∧
  stringToArrayBuffer s = (λ c, c mod 256) <$> s ∧
  arrayBufferToString (stringToArrayBuffer s) = (λ c, c mod 256) <$> s ∧
  (arrayBufferToString (stringToArrayBuffer s) = s ↔
   Forall (λ c, 0 ≤ c < 256) s).
Proof.
  assert (stringToArrayBuffer s = (λ c, c mod 256) <$> s) as Hto.
  { unfold stringToArrayBuffer.
    rewrite stringToArrayBuffer_loop_spec by (rewrite length_replicate; lia).
    by rewrite take_0. }
  assert (arrayBufferToString (stringToArrayBuffer s) = (λ c, c mod 256) <$> s)
    as Hback.
  { unfold arrayBufferToString. rewrite arrayBufferToString_loop_concat, Hto.
    cbn [concat app]. rewrite <- list_fmap_compose. apply list_fmap_ext.
    intros _ c _. cbn. apply Z.mod_small.
    pose proof (Z.mod_pos_bound c 256 ltac:(lia)). lia. }
  split_and!; [by rewrite Hto, length_fmap | done | done |].
  rewrite Hback. apply fmap_id_iff. intros c. apply mod_id_iff. lia.
Qed.

(** Turning a buffer into a string and back gives the buffer again: every
    byte becomes the code unit of the same value, whatever the bytes
    spell in UTF-8. *)
Theorem arrayBufferToString_stringToArrayBuffer (buffer : list Z) :
  Forall is_byte buffer →
  arrayBufferToString buffer = buffer ∧
  stringToArrayBuffer (arrayBufferToString buffer) = buffer.
Proof.
  intros Hbytes.
  assert (arrayBufferToString buffer = buffer) as Hto.
  { unfold arrayBufferToString. rewrite arrayBufferToString_loop_concat.
    cbn [concat app]. apply fmap_id_iff with (P := λ b, 0 ≤ b < 65536).
    - intros b. apply mod_id_iff. lia.
    - eapply Forall_impl; [exact Hbytes|]. unfold is_byte. intros b; cbn; lia. }
  split; [done|]. rewrite Hto. unfold stringToArrayBuffer.
  rewrite stringToArrayBuffer_loop_spec by (rewrite length_replicate; lia).
  rewrite take_0. cbn [app]. apply fmap_id_iff with (P := is_byte); [|done].
  intros b. apply mod_id_iff. lia.
Qed.

Lemma arrayBufferToString_stringToArrayBuffer_witness :
  arrayBufferToString [195; 169; 0; 255] = [195; 169; 0; 255] ∧
  stringToArrayBuffer (arrayBufferToString [195; 169; 0; 255])
    = [195; 169; 0; 255].
Proof.
  apply (arrayBufferToString_stringToArrayBuffer [195; 169; 0; 255]).
  repeat constructor; unfold is_byte; lia.
Defined.

(** ** [countdownReject]: a callback that throws *)



(** ** [arrAdd] and [arrDiff] together *)

Section Reconciliation.

Context {A : Type} `{EqDecision A}.
Implicit Types (l seen listA listB listC old new : list A) (x : A).

Lemma arrDiff_filter listA listB :
  arrDiff listA listB = filter (λ a, a ∉ listB) listA.
Proof. unfold arrDiff. by rewrite arrDiff_loop_spec. Qed.

Lemma arrAdd_first_seen listA listB :
  arrAdd listA listB = first_seen (listA ++ listB).
Proof.
  unfold arrAdd, first_seen. rewrite !arrAdd_loop_spec. simpl.
  rewrite keep_first_app. f_equal. apply keep_first_ext. intros x.
  apply (elem_of_keep_first [] listA x).
Qed.

Lemma elem_of_first_seen l x : x ∈ first_seen l ↔ x ∈ l.
Proof. apply (elem_of_keep_first [] l x). Qed.

(** Keeping the first occurrences that [seen] does not hold is filtering
    the first occurrences. *)
Lemma keep_first_filter seen l t :
  keep_first (t ++ seen) l = filter (λ x, x ∉ seen) (keep_first t l).
Proof.
  revert t. induction l as [|x l IH]; intros t.
  - by rewrite !keep_first_nil.
  - rewrite !keep_first_cons. destruct (decide (x ∈ t)) as [Ht | Ht].
    + rewrite decide_True by (apply elem_of_app; by left). apply IH.
    + destruct (decide (x ∈ seen)) as [Hs | Hs].
      * rewrite decide_True by (apply elem_of_app; by right).
        rewrite filter_cons_False by tauto. rewrite <- IH.
        apply keep_first_ext. intros y. rewrite !elem_of_app, list_elem_of_singleton.
        split; [tauto|]. intros [[? | ->] | ?]; tauto.
      * rewrite decide_False by (rewrite elem_of_app; tauto).
        rewrite filter_cons_True by done. f_equal. rewrite <- IH.
        apply keep_first_ext. intros y. rewrite !elem_of_app, list_elem_of_singleton.
        tauto.
Qed.

(** [arrDiff] gives the empty array exactly when the second array holds
    every element of the first; so an array has no difference with
    itself, and the empty array has none with any array. *)
Theorem arrDiff_empty_iff listA listB :
  (arrDiff listA listB = [] ↔ ∀ x, x ∈ listA → x ∈ listB) ∧
  arrDiff listA listA = [] ∧
  arrDiff listA [] = listA.
Proof.
  assert (∀ l k, arrDiff l k = [] ↔ ∀ x, x ∈ l → x ∈ k) as Hiff.
  { intros l k. rewrite arrDiff_filter. split.
    - intros Hnil x Hin. destruct (decide (x ∈ k)) as [|Hnin]; [done|].
      exfalso. by apply (filter_nil_not_elem_of _ _ x Hnil Hnin).
    - intros Hsub. induction l as [|y l IH]; [done|].
      rewrite filter_cons_False.
      + apply IH. intros x Hx. apply Hsub. by right.
      + intros Hnin. apply Hnin, Hsub. left. }
  split_and!; [apply Hiff | by apply Hiff |].
  rewrite arrDiff_filter. induction listA as [|y l IH]; [done|].
  rewrite filter_cons_True; [by rewrite IH|]. intros Hin. by inversion Hin.
Qed.

(** [arrAdd(A, B)] is [A] without its repetitions followed by what
    [arrDiff] leaves of [B] without its repetitions. *)
Theorem arrAdd_arrDiff listA listB :
  arrAdd listA listB = arrAdd listA [] ++ arrDiff (arrAdd listB []) listA.
Proof.
  rewrite !arrAdd_first_seen, arrDiff_filter, !app_nil_r.
  unfold first_seen. rewrite keep_first_app. f_equal. cbn [app].
  pose proof (keep_first_filter listA listB []) as H1.
  cbn [app] in H1. by rewrite H1.
Qed.

Lemma keep_first_NoDup seen l :
  NoDup l → (∀ x, x ∈ l → x ∉ seen) → keep_first seen l = l.
Proof.
  revert seen. induction l as [|x l IH]; intros seen Hnd Hfresh.
  - by rewrite keep_first_nil.
  - apply NoDup_cons in Hnd as [Hx Hnd]. rewrite keep_first_cons.
    rewrite decide_False by (apply Hfresh; left). f_equal.
    apply IH; [done|]. intros y Hy. rewrite elem_of_app, list_elem_of_singleton.
    intros [Hs | ->]; [|done]. apply (Hfresh y); [by right | done].
Qed.

Lemma keep_first_seen_all seen l :
  (∀ x, x ∈ l → x ∈ seen) → keep_first seen l = [].
Proof.
  intros Hsub. induction l as [|x l IH]; [by rewrite keep_first_nil|].
  rewrite keep_first_cons, decide_True by (apply Hsub; left).
  apply IH. intros y Hy. apply Hsub. by right.
Qed.

Lemma first_seen_NoDup l : NoDup (first_seen l).
Proof. apply (NoDup_keep_first [] l). constructor. Qed.

Lemma first_seen_app_l l k :
  first_seen (first_seen l ++ k) = first_seen (l ++ k).
Proof.
  unfold first_seen at 1 3. rewrite !keep_first_app. cbn [app]. f_equal.
  - apply keep_first_NoDup; [apply first_seen_NoDup|].
    intros x _ Hx. by inversion Hx.
  - apply keep_first_ext. intros x. apply elem_of_first_seen.
Qed.

Lemma first_seen_app_r l k :
  first_seen (l ++ first_seen k) = first_seen (l ++ k).
Proof.
  unfold first_seen at 1 3. rewrite !keep_first_app. cbn [app]. f_equal.
  pose proof (keep_first_filter l (first_seen k) []) as H1.
  pose proof (keep_first_filter l k []) as H2.
  cbn [app] in H1, H2. rewrite H1, H2.
  f_equal. apply keep_first_NoDup; [apply first_seen_NoDup|].
  intros x _ Hx. by inversion Hx.
Qed.

(** Adding is associative, and adding again an array that was already
    added changes nothing. *)
Theorem arrAdd_assoc listA listB listC :
  arrAdd (arrAdd listA listB) listC = arrAdd listA (arrAdd listB listC) ∧
  arrAdd (arrAdd listA listB) listB = arrAdd listA listB ∧
  arrAdd (arrAdd listA listB) listA = arrAdd listA listB.
Proof.
  rewrite !arrAdd_first_seen, !first_seen_app_l, first_seen_app_r.
  split_and!.
  - by rewrite app_assoc.
  - unfold first_seen. rewrite (keep_first_app [] (listA ++ listB) listB).
    rewrite (keep_first_seen_all ([] ++ listA ++ listB) listB);
      [by rewrite app_nil_r|].
    intros x Hx. cbn [app]. apply elem_of_app. by right.
  - unfold first_seen. rewrite (keep_first_app [] (listA ++ listB) listA).
    rewrite (keep_first_seen_all ([] ++ listA ++ listB) listA);
      [by rewrite app_nil_r|].
    intros x Hx. cbn [app]. apply elem_of_app. by left.
Qed.

(** Taking two arrays away one after the other is taking away their sum,
    in either order; taking the same array away twice changes nothing. *)
Theorem arrDiff_arrDiff listA listB listC :
  arrDiff (arrDiff listA listB) listC = arrDiff listA (arrAdd listB listC) ∧
  arrDiff (arrDiff listA listB) listC = arrDiff (arrDiff listA listC) listB ∧
  arrDiff (arrDiff listA listB) listB = arrDiff listA listB.
Proof.
  rewrite !arrDiff_filter, !list_filter_filter. split_and!.
  - apply list_filter_iff. intros x.
    rewrite arrAdd_first_seen, elem_of_first_seen, elem_of_app. tauto.
  - apply list_filter_iff. intros x. tauto.
  - apply list_filter_iff. intros x. tauto.
Qed.

(** Reconciling two polls: with [removed = arrDiff(old, new)] and
    [added = arrDiff(new, old)], taking [removed] away from [old] and
    adding [added] gives exactly the elements of [new], each once; no
    element is both added and removed, and both differences are empty
    exactly when the two polls hold the same elements. *)
Theorem arrDiff_arrAdd_reconcile old new :
  let removed := arrDiff old new in
  let added := arrDiff new old in
  (∀ x, x ∈ arrAdd (arrDiff old removed) added ↔ x ∈ new) ∧
  NoDup (arrAdd (arrDiff old removed) added) ∧
  (∀ x, x ∈ added → x ∉ removed) ∧
  (added = [] ∧ removed = [] ↔ ∀ x, x ∈ old ↔ x ∈ new).
Proof.
  intros removed added. subst removed added.
  assert (∀ l k x, x ∈ arrDiff l k ↔ x ∈ l ∧ x ∉ k) as Hdiff.
  { intros l k x. rewrite arrDiff_filter, list_elem_of_filter. tauto. }
  assert (∀ l k, arrDiff l k = [] ↔ ∀ x, x ∈ l → x ∈ k) as Hnil.
  { intros l k. split.
    - intros Hemp x Hin. destruct (decide (x ∈ k)) as [|Hnin]; [done|].
      assert (x ∈ arrDiff l k) as Hx by (by apply Hdiff).
      rewrite Hemp in Hx. by inversion Hx.
    - intros Hsub. destruct (arrDiff l k) as [|y d] eqn:Hd; [done|].
      assert (y ∈ arrDiff l k) as Hy by (rewrite Hd; left).
      apply Hdiff in Hy as [Hy Hnin]. exfalso. by apply Hnin, Hsub. }
  split_and!.
  - intros x. rewrite arrAdd_first_seen, elem_of_first_seen, elem_of_app.
    rewrite !Hdiff. destruct (decide (x ∈ old)), (decide (x ∈ new)); tauto.
  - rewrite arrAdd_first_seen. apply first_seen_NoDup.
  - intros x. rewrite !Hdiff. tauto.
  - rewrite !Hnil. split.
    + intros [Hnew Hold] x. split; auto.
    + intros Hsame. split; intros x Hx; by apply Hsame.
Qed.

End Reconciliation.

(** ** The gateway of an address in [10.*] or [192.*] *)

Lemma same_top_octets (a b : IPv4) :
  octets_ok a → octets_ok b →
  (same_top (word a) (word b) 1 = true →
   (nth 0 (octets a) 0 <? 128) = (nth 0 (octets b) 0 <? 128)) ∧
  (same_top (word a) (word b) 8 = true ↔
   nth 0 (octets a) 0 = nth 0 (octets b) 0) ∧
  (same_top (word a) (word b) 16 = true → nth 1 (octets a) 0 = nth 1 (octets b) 0) ∧
  (same_top (word a) (word b) 24 = true → nth 2 (octets a) 0 = nth 2 (octets b) 0).
Proof.
  intros (a0 & a1 & a2 & a3 & Ha & ? & ? & ? & ?)
         (b0 & b1 & b2 & b3 & Hb & ? & ? & ? & ?).
  unfold same_top, word, fromBytes. rewrite Ha, Hb. cbn [fold_left nth].
  change (32 - 1) with 31. change (32 - 8) with 24.
  change (32 - 16) with 16. change (32 - 24) with 8.
  rewrite !Z.eqb_eq, !Z.shiftr_div_pow2 by lia. eval_pows.
  split_and!; [| split |..]; intros Heq;
    repeat match goal with
           | |- context [?x <? ?y] => destruct (Z.ltb_spec x y)
           end; try reflexivity; try (exfalso; Z.div_mod_to_equations; lia);
    Z.div_mod_to_equations; lia.
Qed.

Lemma shared_bits_bounds (a b : IPv4) (k : Z) :
  0 ≤ k ≤ 32 →
  (same_top (word a) (word b) k = true → k ≤ shared_bits a b) ∧
  (1 ≤ k ≤ shared_bits a b → same_top (word a) (word b) k = true).
Proof.
  intros Hk. unfold shared_bits.
  destruct (common_prefix_spec 32 (word a) (word b)) as (Hrange & Htop & Habove).
  split.
  - intros Hs. destruct (Z.le_gt_cases k (common_prefix 32 (word a) (word b)))
      as [|Hlt]; [done|].
    rewrite Habove in Hs by lia. discriminate.
  - intros Hle. destruct Htop as [H0 | Htop]; [lia|].
    apply (same_top_mono _ _ k (common_prefix 32 (word a) (word b))); [lia | lia | done].
Qed.

Lemma pushed_for_Some (m : IPv4) (s : string) (x : number) :
  pushed_for m s = Some x →
  ∃ ip, parse s = Normal ip ∧ x = Num (shared_bits ip m) ∧ shared_bits ip m < 31.
Proof.
  unfold pushed_for. destruct (parse s) as [ip|]; [|discriminate].
  destruct (Z.ltb_spec (shared_bits ip m) 31); [|discriminate].
  intros [= <-]. eauto.
Qed.

Lemma Forall_Num (P : Z → Prop) (pm : list number) :
  Forall (λ x, ∃ z, x = Num z ∧ P z) pm →
  ∃ zs, pm = Num <$> zs ∧ Forall P zs.
Proof.
  induction 1 as [|x pm (z & -> & Hz) _ (zs & -> & Hzs)].
  - by exists [].
  - exists (z :: zs). split; [done | by constructor].
Qed.

(** Where the first greatest value lies, in an array made of a block of
    zeros and a block of values that are at least 8. *)
Lemma indexOf_Math_max_block (pmA pmB : list number) :
  (Forall (λ x, ∃ z, x = Num z ∧ z = 0) pmA →
   Forall (λ x, ∃ z, x = Num z ∧ 8 ≤ z) pmB → pmB ≠ [] →
   ∃ k : nat, indexOf (pmA ++ pmB) (Math_max (pmA ++ pmB)) = Z.of_nat k ∧
              (length pmA ≤ k < length (pmA ++ pmB))%nat) ∧
  (Forall (λ x, ∃ z, x = Num z ∧ 8 ≤ z) pmA →
   Forall (λ x, ∃ z, x = Num z ∧ z = 0) pmB → pmA ≠ [] →
   ∃ k : nat, indexOf (pmA ++ pmB) (Math_max (pmA ++ pmB)) = Z.of_nat k ∧
              (k < length pmA)%nat).
Proof.
  split.
  - intros (zsA & -> & HA)%Forall_Num (zsB & -> & HB)%Forall_Num HneB.
    rewrite <- fmap_app.
    destruct (indexOf_Math_max (zsA ++ zsB)) as (i & M & Hi & Hlook & Hupper & _).
    { destruct zsA, zsB; done. }
    exists i. split; [done|]. rewrite !length_fmap.
    pose proof (lookup_lt_Some _ _ _ Hlook) as Hlt. split; [|done].
    destruct (decide (length zsA ≤ i)%nat) as [|Hsmall]; [done|].
    exfalso. rewrite lookup_app_l in Hlook by lia.
    apply (proj1 (Forall_lookup _ _) HA) in Hlook. 
    destruct zsB as [|z zsB]; [done|].
    inversion HB as [|? ? Hz _]; subst.
    assert (z ≤ 0); [|lia].
    apply (Hupper (length zsA)). by rewrite lookup_app_r, Nat.sub_diag by lia.
  - intros (zsA & -> & HA)%Forall_Num (zsB & -> & HB)%Forall_Num HneA.
    rewrite <- fmap_app.
    destruct (indexOf_Math_max (zsA ++ zsB)) as (i & M & Hi & Hlook & Hupper & _).
    { destruct zsA; done. }
    exists i. split; [done|]. rewrite !length_fmap.
    destruct (decide (i < length zsA)%nat) as [|Hbig]; [done|].
    exfalso. rewrite lookup_app_r in Hlook by lia.
    apply (proj1 (Forall_lookup _ _) HB) in Hlook.
    destruct zsA as [|z zsA]; [done|].
    inversion HA as [|? ? Hz _]; subst.
    assert (z ≤ 0); [|lia].
    by apply (Hupper 0%nat).
Qed.

Lemma ROUTER_IPS_blocks :
  ROUTER_IPS = take 15 ROUTER_IPS ++ drop 15 ROUTER_IPS ∧
  Forall (λ s, ∃ ip, parse s = Normal ip ∧ nth 0 (octets ip) 0 = 192)
    (take 15 ROUTER_IPS) ∧
  Forall (λ s, ∃ ip, parse s = Normal ip ∧ nth 0 (octets ip) 0 = 10)
    (drop 15 ROUTER_IPS).
Proof.
  split_and!; [reflexivity | |];
    repeat constructor; eexists; split; vm_compute; reflexivity.
Qed.

(** Entries whose first octet and the address's lie on different sides of
    128 share no bit with it; entries with the address's first octet share
    at least eight. *)
Lemma pushed_for_first_octet (m ip : IPv4) (s : string) :
  octets_ok m → parse s = Normal ip →
  ((nth 0 (octets ip) 0 <? 128) ≠ (nth 0 (octets m) 0 <? 128) →
   pushed_for m s = Some (Num 0)) ∧
  (nth 0 (octets ip) 0 = nth 0 (octets m) 0 →
   ∀ x, pushed_for m s = Some x → ∃ z, x = Num z ∧ 8 ≤ z).
Proof.
  intros Hm Hs. pose proof (parse_octets_ok s ip Hs) as Hip.
  destruct (same_top_octets ip m Hip Hm) as (H1 & H8 & _).
  split.
  - intros Hside. unfold pushed_for. rewrite Hs.
    assert (shared_bits ip m = 0) as ->; [|done].
    destruct (common_prefix_spec 32 (word ip) (word m)) as (Hrange & _ & _).
    fold (shared_bits ip m) in Hrange.
    destruct (decide (1 ≤ shared_bits ip m)) as [Hge | ]; [|lia].
    exfalso. apply Hside, H1.
    apply (shared_bits_bounds ip m 1); lia.
  - intros Hsame x (ip' & Hs' & -> & _)%pushed_for_Some.
    assert (ip' = ip) as -> by congruence.
    eexists. split; [done|].
    apply (shared_bits_bounds ip m 8); [lia|]. by apply H8.
Qed.

(** The address cannot share 31 bits with two entries that differ in
    their second or third octet. *)
Lemma pushed_for_not_both (m ip1 ip2 : IPv4) (s1 s2 : string) :
  octets_ok m → parse s1 = Normal ip1 → parse s2 = Normal ip2 →
  nth 1 (octets ip1) 0 ≠ nth 1 (octets ip2) 0 ∨
  nth 2 (octets ip1) 0 ≠ nth 2 (octets ip2) 0 →
  pushed_for m s1 = None → pushed_for m s2 = None → False.
Proof.
  intros Hm Hs1 Hs2 Hdiff. unfold pushed_for. rewrite Hs1, Hs2.
  destruct (Z.ltb_spec (shared_bits ip1 m) 31) as [|H1]; [discriminate|].
  destruct (Z.ltb_spec (shared_bits ip2 m) 31) as [|H2]; [discriminate|].
  intros _ _.
  destruct (same_top_octets ip1 m (parse_octets_ok _ _ Hs1) Hm) as (_ & _ & Ha16 & Ha24).
  destruct (same_top_octets ip2 m (parse_octets_ok _ _ Hs2) Hm) as (_ & _ & Hb16 & Hb24).
  assert (∀ ip k, 31 ≤ shared_bits ip m → 1 ≤ k ≤ 24 →
                  same_top (word ip) (word m) k = true) as Htop
    by (intros ip k Hge Hk; apply (shared_bits_bounds ip m k); lia).
  specialize (Ha16 (Htop ip1 16 H1 ltac:(lia))).
  specialize (Ha24 (Htop ip1 24 H1 ltac:(lia))).
  specialize (Hb16 (Htop ip2 16 H2 ltac:(lia))).
  specialize (Hb24 (Htop ip2 24 H2 ltac:(lia))).
  destruct Hdiff as [Hd | Hd]; apply Hd; congruence.
Qed.

Lemma omap_all_Some {A B} (f : A → option B) (y : B) (l : list A) :
  Forall (λ s, f s = Some y) l → omap f l = replicate (length l) y.
Proof.
  induction 1 as [|s l Hs _ IH]; [done|]. csimpl. by rewrite Hs, IH.
Qed.

(** For a private address that starts with 10 or with 192, the gateway
    [longestPrefixMatch] picks from [ROUTER_IPS] starts with the same
    octet, also when it is not the entry with the longest shared prefix. *)
Theorem longestPrefixMatch_ROUTER_IPS_first_octet (privateIp : string)
    (ip : IPv4) :
  parse privateIp = Normal ip →
  nth 0 (octets ip) 0 = 10 ∨ nth 0 (octets ip) 0 = 192 →
  ∃ g gip,
    longestPrefixMatch ROUTER_IPS privateIp = Normal (Some g) ∧
    g ∈ ROUTER_IPS ∧
    parse g = Normal gip ∧
    nth 0 (octets gip) 0 = nth 0 (octets ip) 0.
Proof.
  intros Hip Hfirst. pose proof (parse_octets_ok _ _ Hip) as Hm.
  destruct ROUTER_IPS_blocks as (Hsplit & H192 & H10).
  unfold longestPrefixMatch. rewrite Hip. cbn [bind].
  rewrite prefixLoop_pushed by (done || apply ROUTER_IPS_parse). cbn [bind app].
  set (pmA := omap (pushed_for ip) (take 15 ROUTER_IPS)).
  set (pmB := omap (pushed_for ip) (drop 15 ROUTER_IPS)).
  assert (omap (pushed_for ip) ROUTER_IPS = pmA ++ pmB) as ->
    by (unfold pmA, pmB; by rewrite <- omap_app, <- Hsplit).
  assert (length pmA ≤ 15 ∧ length pmB ≤ 5)%nat as [HlenA HlenB].
  { split; (etrans; [apply length_omap_le|]); vm_compute; lia. }
  assert (∀ k : nat, (k < 20)%nat →
            ∃ g, index ROUTER_IPS (Z.of_nat k) = Some g ∧ ROUTER_IPS !! k = Some g)
    as Hindex.
  { intros k Hk. unfold index.
    replace (Z.of_nat k <? 0) with false by (symmetry; apply Z.ltb_ge; lia).
    rewrite Nat2Z.id.
    destruct (lookup_lt_is_Some_2 ROUTER_IPS k) as [g Hg]; [vm_compute; lia|].
    eauto. }
  destruct Hfirst as [H0 | H0].
  - (* the address starts with 10: the first block pushes fifteen zeros *)
    assert (pmA = replicate 15 (Num 0)) as HA.
    { unfold pmA. rewrite (omap_all_Some _ (Num 0)); [done|].
      eapply Forall_impl; [exact H192|]. intros s (sip & Hs & Hoct). cbn.
      apply (pushed_for_first_octet ip sip s Hm Hs). rewrite Hoct, H0. done. }
    assert (Forall (λ x, ∃ z, x = Num z ∧ 8 ≤ z) pmB) as HB.
    { apply Forall_forall. intros x (s & Hs & Hx)%list_elem_of_omap.
      destruct (proj1 (Forall_forall _ _) H10 s Hs) as (sip & Hsip & Hoct).
      apply (pushed_for_first_octet ip sip s Hm Hsip); [congruence | done]. }
    assert (pmB ≠ []) as HneB.
    { unfold pmB. rewrite omap_nil_iff. intros Hall.
      apply (pushed_for_not_both ip {| octets := [10; 0; 1; 1] |}
               {| octets := [10; 1; 1; 1] |} "10.0.1.1" "10.1.1.1" Hm);
        [reflexivity | reflexivity | left; discriminate | |];
        apply (proj1 (Forall_forall _ _) Hall); repeat constructor. }
    destruct (proj1 (indexOf_Math_max_block pmA pmB)) as (k & -> & Hk); [| done | done |].
    { rewrite HA. repeat constructor; by exists 0. }
    rewrite HA, length_app in Hk. cbn [length replicate] in Hk.
    destruct (Hindex k) as (g & -> & Hg); [lia|].
    assert (drop 15 ROUTER_IPS !! (k - 15)%nat = Some g) as Hdrop
      by (rewrite lookup_drop, <- Hg; f_equal; lia).
    destruct (proj1 (Forall_lookup _ _) H10 _ _ Hdrop) as (gip & Hgip & Hoct).
    exists g, gip. split_and!; [done | by eapply list_elem_of_lookup_2 | done | congruence].
  - (* the address starts with 192: the second block pushes five zeros *)
    assert (pmB = replicate 5 (Num 0)) as HB.
    { unfold pmB. rewrite (omap_all_Some _ (Num 0)); [done|].
      eapply Forall_impl; [exact H10|]. intros s (sip & Hs & Hoct). cbn.
      apply (pushed_for_first_octet ip sip s Hm Hs). rewrite Hoct, H0. done. }
    assert (Forall (λ x, ∃ z, x = Num z ∧ 8 ≤ z) pmA) as HA.
    { apply Forall_forall. intros x (s & Hs & Hx)%list_elem_of_omap.
      destruct (proj1 (Forall_forall _ _) H192 s Hs) as (sip & Hsip & Hoct).
      apply (pushed_for_first_octet ip sip s Hm Hsip); [congruence | done]. }
    assert (pmA ≠ []) as HneA.
    { unfold pmA. rewrite omap_nil_iff. intros Hall.
      apply (pushed_for_not_both ip {| octets := [192; 168; 1; 1] |}
               {| octets := [192; 168; 2; 1] |} "192.168.1.1" "192.168.2.1" Hm);
        [reflexivity | reflexivity | right; discriminate | |];
        apply (proj1 (Forall_forall _ _) Hall); repeat constructor. }
    destruct (proj2 (indexOf_Math_max_block pmA pmB)) as (k & -> & Hk); [done | | done |].
    { rewrite HB. repeat constructor; by exists 0. }
    destruct (Hindex k) as (g & -> & Hg); [lia|].
    assert (take 15 ROUTER_IPS !! k = Some g) as Htake
      by (rewrite lookup_take_lt by lia; done).
    destruct (proj1 (Forall_lookup _ _) H192 _ _ Htake) as (gip & Hgip & Hoct).
    exists g, gip. split_and!; [done | by eapply list_elem_of_lookup_2 | done | congruence].
Qed.

Lemma longestPrefixMatch_ROUTER_IPS_first_octet_witness :
  ∃ g gip,
    longestPrefixMatch ROUTER_IPS "10.0.0.3" = Normal (Some g) ∧
    g ∈ ROUTER_IPS ∧
    parse g = Normal gip ∧
    nth 0 (octets gip) 0 = nth 0 (octets {| octets := [10; 0; 0; 3] |}) 0.
Proof.
  apply (longestPrefixMatch_ROUTER_IPS_first_octet "10.0.0.3"
           {| octets := [10; 0; 0; 3] |}).
  - reflexivity.
  - left. reflexivity.
Defined.
